(** * Deutsch and Deutsch-Jozsa: oracle construction and decision procedures

    A shallow embedding of [src/deutschJozsaAlgorithm.py] and
    [src/deutschsAlgorithm.py].  Circuits are records holding an ordered
    instruction list, as the Python builder object accumulates them; the
    simulator is an exact state-vector model with integer amplitudes (every
    Hadamard is kept unnormalised, so that the weight of the whole state is
    [2 ^ #H] and no square root is needed). *)

From Stdlib Require Import List NArith ZArith Lia Bool String Ascii Permutation Finite.
Import ListNotations.

Local Open Scope string_scope.
Local Open Scope list_scope.

(** ** Python results *)

Inductive exn : Type :=
| ValueError (msg : string)
| TypeError
| BackendFailure.

Inductive result (A : Type) : Type :=
| Ok (a : A)
| Raise (e : exn).

Arguments Ok {A} a.
Arguments Raise {A} e.

Definition bind {A B : Type} (m : result A) (k : A -> result B) : result B :=
  match m with
  | Ok a => k a
  | Raise e => Raise e
  end.

Notation "x <- m ;; k" := (bind m (fun x => k))
  (at level 61, m at next level, right associativity).

(** ** Circuits: the part of [qiskit.QuantumCircuit] the sources use *)

Module Circuit.

Inductive Instruction : Type :=
| XGate (q : nat)
| HGate (q : nat)
| CXGate (c t : nat)
| MCXGate (controls : list nat) (t : nat)
| Barrier
| Measure (q c : nat).

Record QuantumCircuit : Type := mkCircuit {
  num_qubits : nat;
  num_clbits : nat;
  data : list Instruction
}.

(** [QuantumCircuit(nq, nc)] *)
Definition new (nq nc : nat) : QuantumCircuit := mkCircuit nq nc [].

Definition extend (qc : QuantumCircuit) (gs : list Instruction) : QuantumCircuit :=
  mkCircuit (num_qubits qc) (num_clbits qc) (data qc ++ gs).

Definition x (qc : QuantumCircuit) (q : nat) := extend qc [XGate q].
Definition cx (qc : QuantumCircuit) (c t : nat) := extend qc [CXGate c t].
Definition mcx (qc : QuantumCircuit) (cs : list nat) (t : nat) :=
  extend qc [MCXGate cs t].
Definition barrier (qc : QuantumCircuit) := extend qc [Barrier].

(** [qc.h(range(k))]: one Hadamard per line, in increasing order.  What the
    circuit library does with an empty range ([k = 0]) is not in the sources;
    every statement below is about [n >= 1] input lines. *)
Definition h_range (qc : QuantumCircuit) (k : nat) :=
  extend qc (map HGate (seq 0 k)).

(** [qc.measure(q, c)] *)
Definition measure (qc : QuantumCircuit) (q c : nat) := extend qc [Measure q c].

(** [qc.measure(range(k), range(k))] *)
Definition measure_range (qc : QuantumCircuit) (k : nat) :=
  extend qc (map (fun i => Measure i i) (seq 0 k)).

(** [qc.compose(other, inplace=True)] for circuits on the same lines. *)
Definition compose (qc other : QuantumCircuit) := extend qc (data other).

(** *** Basis states and amplitudes *)

(** A basis state of [nq] lines is a number below [2 ^ nq]; line [q] is
    bit [q]. *)
Definition bit (y : N) (q : nat) : bool := N.testbit y (N.of_nat q).

Definition flip (q : nat) (y : N) : N := N.lxor y (2 ^ N.of_nat q).

(** The permutation of basis states of a classical reversible gate; each is
    its own inverse. *)
Definition permute (g : Instruction) (y : N) : N :=
  match g with
  | XGate q => flip q y
  | CXGate c t => if bit y c then flip t y else y
  | MCXGate cs t => if forallb (bit y) cs then flip t y else y
  | HGate _ | Barrier | Measure _ _ => y
  end.

Definition amplitudes : Type := N -> Z.

(** One instruction on the state vector.  The Hadamard is unnormalised:
    [|0> -> |0> + |1>] and [|1> -> |0> - |1>].  Measurements are terminal in
    every circuit of the sources and are read out by [readout] below. *)
Definition apply (g : Instruction) (amp : amplitudes) : amplitudes :=
  match g with
  | HGate q =>
      fun y => (if bit y q then amp (flip q y) - amp y
                else amp y + amp (flip q y))%Z
  | _ => fun y => amp (permute g y)
  end.

Definition evolve (gs : list Instruction) (amp : amplitudes) : amplitudes :=
  fold_left (fun a g => apply g a) gs amp.

(** All lines start in [|0>]. *)
Definition ket0 : amplitudes := fun y => if (y =? 0)%N then 1%Z else 0%Z.

Definition is_h (g : Instruction) : bool :=
  match g with HGate _ => true | _ => false end.

Definition hadamards (gs : list Instruction) : nat :=
  List.length (filter is_h gs).

Definition basis (nq : nat) : list N := map N.of_nat (seq 0 (2 ^ nq)).

(** *** Classical register *)

Definition set_bit (c : nat) (b : bool) (creg : N) : N :=
  if b then N.setbit creg (N.of_nat c) else N.clearbit creg (N.of_nat c).

Fixpoint readout (gs : list Instruction) (y : N) (creg : N) : N :=
  match gs with
  | [] => creg
  | Measure q c :: gs' => readout gs' y (set_bit c (bit y q) creg)
  | _ :: gs' => readout gs' y creg
  end.

(** The memory string of one shot: classical bit [nc - 1] first. *)
Fixpoint memory (nc : nat) (creg : N) : string :=
  match nc with
  | O => EmptyString
  | S k => String (if bit creg k then "1" else "0")%char (memory k creg)
  end.

End Circuit.

Import Circuit.

(** ** The simulation backend *)

Module Aer.

(** Inverse-CDF sampling over the basis states in their order: the first
    state whose cumulated weight exceeds the draw. *)
Fixpoint sample_from (amp : amplitudes) (ys : list N) (r : Z) : option N :=
  match ys with
  | [] => None
  | y :: ys' =>
      let w := (amp y * amp y)%Z in
      if (r <? w)%Z then Some y else sample_from amp ys' (r - w)%Z
  end.

(** Modelled from the spec: the simulation backend ([qiskit_aer.AerSimulator],
    an external collaborator whose code is not part of the repository), as
    the contract of section 6 states it: apply the transforms to the state
    and return one outcome drawn by the Born rule.  The state has weight
    [2 ^ hadamards]; [seed] is the random draw of the shot, reduced into
    that range, so every outcome of positive probability is returned for
    some seed and no other outcome ever is.  The result is the memory
    string of the single shot, [run(qc, shots=1, memory=True)
    .result().get_memory()[0]]. *)
Definition run (qc : QuantumCircuit) (seed : N) : result string :=
  let amp := evolve (data qc) ket0 in
  let r := (Z.of_N seed mod 2 ^ Z.of_nat (hadamards (data qc)))%Z in
  match sample_from amp (basis (num_qubits qc)) r with
  | Some y => Ok (memory (num_clbits qc) (readout (data qc) y 0))
  | None => Raise BackendFailure
  end.

(** The Born-rule probability of a basis state, as a numerator over
    [2 ^ hadamards]. *)
Definition weight (qc : QuantumCircuit) (y : N) : Z :=
  let a := evolve (data qc) ket0 y in (a * a)%Z.

End Aer.

(** ** Python strings *)

(** [needle in s] for strings. *)
Fixpoint str_in (needle s : string) : bool :=
  String.prefix needle s ||
  match s with
  | EmptyString => false
  | String _ s' => str_in needle s'
  end.

(** Binary digits of a positive number, least significant first. *)
Fixpoint bits_lsb (p : positive) : list ascii :=
  match p with
  | xH => ["1"%char]
  | xO p' => "0"%char :: bits_lsb p'
  | xI p' => "1"%char :: bits_lsb p'
  end.

(** [f"{state:0b}"] for a non-negative integer: its binary digits, most
    significant first, without padding (the [0] flag has no width). *)
Definition format_b (state : N) : string :=
  match state with
  | N0 => "0"
  | Npos p => string_of_list_ascii (rev (bits_lsb p))
  end.

(** [f"{state:0{n}b}"]: the same digits left-padded with zeros to [n]
    characters.  The sources never use it; it is the padded spelling that
    [format_b] is compared with. *)
Definition format_0nb (n : nat) (state : N) : string :=
  let s := format_b state in
  string_of_list_ascii (repeat "0"%char (n - String.length s)) ++ s.

(** ** [src/deutschJozsaAlgorithm.py] *)

Module deutschJozsaAlgorithm.

(** [enumerate(reversed(bit_string))], from index [qubit] on. *)
Fixpoint add_cx_gates (qubit : nat) (bits : list ascii) : list Instruction :=
  match bits with
  | [] => []
  | b :: bits' =>
      (if Ascii.eqb b "1" then [XGate qubit] else [])
        ++ add_cx_gates (S qubit) bits'
  end.

(** For a [bit_string] of ASCII characters no longer than the circuit has
    lines, as every call in the source is; a ["1"] beyond the last line makes
    the circuit library raise, which the model does not follow. *)
Definition add_cx (qc : QuantumCircuit) (bit_string : string) : QuantumCircuit :=
  extend qc (add_cx_gates 0 (rev (list_ascii_of_string bit_string))).

(** The loop body of the balanced branch for one element of [on_states]. *)
Definition on_state_block (num_qubits : nat) (qc : QuantumCircuit) (state : N)
  : QuantumCircuit :=
  let qc := barrier qc in
  let qc := add_cx qc (format_b state) in
  let qc := mcx qc (seq 0 num_qubits) num_qubits in
  add_cx qc (format_b state).

(** [dj_function(num_qubits)] for [num_qubits >= 0].  The three random draws
    are arguments: [flip_output] and [constant] are the two
    [np.random.randint(0, 2)] results, [on_states] is the sample returned by
    [np.random.choice].  A negative [num_qubits], on which the libraries
    raise, is outside the model. *)
Definition dj_function (num_qubits : nat) (flip_output constant : bool)
    (on_states : list N) : result QuantumCircuit :=
  let qc := new (num_qubits + 1) 0 in
  let qc := if flip_output then x qc num_qubits else qc in
  if constant then Ok qc
  else
    let qc := fold_left (on_state_block num_qubits) on_states qc in
    let qc := barrier qc in
    Ok qc.

(** What [np.random.choice(range(2**n), 2**n // 2, replace=False)] can
    return: [2^n / 2] distinct numbers below [2^n]. *)
Definition choice_without_replacement (n : nat) (on_states : list N) : Prop :=
  NoDup on_states /\
  Forall (fun s => (s < 2 ^ N.of_nat n)%N) on_states /\
  List.length on_states = (2 ^ n / 2)%nat.

(** For a [function] of at least two lines ([n >= 1] input lines); on a
    smaller circuit the circuit library raises, which the model does not
    follow. *)
Definition compile_circuit (function : QuantumCircuit) : QuantumCircuit :=
  let n := (num_qubits function - 1)%nat in
  let qc := new (n + 1) n in
  let qc := x qc n in
  let qc := h_range qc (n + 1) in
  let qc := compose qc function in
  let qc := h_range qc n in
  measure_range qc n.

Definition dj_algorithm (function : QuantumCircuit) (seed : N) : result string :=
  let qc := compile_circuit function in
  measurement <- Aer.run qc seed ;;
  if str_in "1" measurement then Ok "balanced" else Ok "constant".

(** One pass through the loop body up to the simulator call: the circuit
    that queries [function] at the classical input [state]. *)
Definition query_circuit (function : QuantumCircuit) (state : N) : QuantumCircuit :=
  let n := (num_qubits function - 1)%nat in
  let c := new (n + 1) 1 in
  let c := add_cx c (format_b state) in
  let c := compose c function in
  measure c n 0.

(** [result in outputs] *)
Definition mem (result : string) (outputs : list string) : bool :=
  existsb (String.eqb result) outputs.

(** Truthiness of a list. *)
Definition nonempty {A : Type} (l : list A) : bool :=
  match l with [] => false | _ => true end.

(** The [for ... else] loop; [rng k] is the random draw of the simulator
    call made when [k] queries have been counted before it.  Beside the value
    the code returns, the second component records the circuits handed to
    [AerSimulator().run], in the order of the calls: the queries made. *)
Fixpoint classical_loop (function : QuantumCircuit) (rng : nat -> N)
    (try_states : list N) (num_queries : nat) (outputs : list string)
  : result (string * nat) * list QuantumCircuit :=
  match try_states with
  | [] => (Ok ("constant", num_queries), [])
  | state :: rest =>
      let c := query_circuit function state in
      let seed := rng num_queries in
      let num_queries := S num_queries in
      match Aer.run c seed with
      | Raise e => (Raise e, [c])
      | Ok result =>
          if nonempty outputs && negb (mem result outputs)
          then (Ok ("balanced", num_queries), [c])
          else
            let (returned, queries) :=
              classical_loop function rng rest num_queries (outputs ++ [result]) in
            (returned, c :: queries)
      end
  end.

(** [range(2**(n-1)+1)]: for [n = 0] the power is the float [0.5] and
    [range] refuses it. *)
Definition try_states (n : nat) : result (list N) :=
  match n with
  | O => Raise TypeError
  | S k => Ok (map N.of_nat (seq 0 (2 ^ k + 1)))
  end.

(** [dj_classical_algorithm] with the record of its simulator calls. *)
Definition dj_classical_algorithm_queries (function : QuantumCircuit) (rng : nat -> N)
  : result (string * nat) * list QuantumCircuit :=
  let n := (num_qubits function - 1)%nat in
  match try_states n with
  | Raise e => (Raise e, [])
  | Ok states => classical_loop function rng states 0 []
  end.

(** What the code returns. *)
Definition dj_classical_algorithm (function : QuantumCircuit) (rng : nat -> N)
  : result (string * nat) :=
  fst (dj_classical_algorithm_queries function rng).

End deutschJozsaAlgorithm.

(** ** [src/deutschsAlgorithm.py] *)

Module deutschsAlgorithm.

Definition deutsch_function (case : Z) : result QuantumCircuit :=
  if negb (existsb (Z.eqb case) [1; 2; 3; 4]%Z)
  then Raise (ValueError "`case` must be 1, 2, 3, or 4.")
  else
    let f := new 2 0 in
    let f :=
      if (case =? 2)%Z then cx f 0 1
      else if (case =? 3)%Z then x (cx f 0 1) 1
      else if (case =? 4)%Z then x f 1
      else f in
    Ok f.

(** For a [function] of at least two lines, as in
    [deutschJozsaAlgorithm.compile_circuit]. *)
Definition compile_circuit (function : QuantumCircuit) : QuantumCircuit :=
  let n := (num_qubits function - 1)%nat in
  let qc := new (n + 1) n in
  let qc := x qc n in
  let qc := h_range qc (n + 1) in
  let qc := barrier qc in
  let qc := compose qc function in
  let qc := barrier qc in
  let qc := h_range qc n in
  measure_range qc n.

Definition deutsch_algorithm (function : QuantumCircuit) (seed : N) : result string :=
  let qc := compile_circuit function in
  measurement <- Aer.run qc seed ;;
  if String.eqb measurement "0" then Ok "constant" else Ok "balanced".

End deutschsAlgorithm.

Module DJ := deutschJozsaAlgorithm.
Module D := deutschsAlgorithm.

(** ** Vocabulary of the statements *)

Definition sumZ (l : list Z) : Z := fold_right Z.add 0%Z l.

(** Squared norm of a state over the basis of [nq] lines. *)
Definition norm2 (nq : nat) (amp : amplitudes) : Z :=
  sumZ (map (fun y => (amp y * amp y)%Z) (basis nq)).

(** Instructions the circuit builder accepts on [nq] lines: indices in range
    and no line used twice by one instruction. *)
Definition wf (nq : nat) (g : Instruction) : Prop :=
  match g with
  | XGate q | HGate q | Measure q _ => q < nq
  | CXGate c t => c < nq /\ t < nq /\ c <> t
  | MCXGate cs t => t < nq /\ ~ In t cs
  | Barrier => True
  end.

(** Classical evaluation of a gate list on a basis state, first gate first. *)
Definition forward (gs : list Instruction) (y : N) : N :=
  fold_left (fun s g => permute g s) gs y.

(** The same gates undone, last gate first. *)
Definition backward (gs : list Instruction) (y : N) : N :=
  fold_right permute y gs.

(** The input part of a basis state of [n + 1] lines. *)
Definition inputs (n : nat) (y : N) : N := (y mod 2 ^ N.of_nat n)%N.

(** The function a generated oracle computes: the output flip, and one more
    flip for every element of [on_states] whose bitwise complement on [n]
    lines is the input. *)
Definition dj_table (n : nat) (flip_output : bool) (on_states : list N) (x : N) : bool :=
  fold_left (fun b s => xorb b (x =? N.lnot s (N.of_nat n))%N) on_states flip_output.

Definition strip_barriers (gs : list Instruction) : list Instruction :=
  filter (fun g => match g with Barrier => false | _ => true end) gs.

(** Gates a reversible black box is made of: no Hadamard, no measurement. *)
Definition classical (g : Instruction) : bool :=
  match g with
  | HGate _ | Measure _ _ => false
  | _ => true
  end.

(** The transform [|x, b> -> |x, b xor tt x>] on [n] input lines and the
    output line [n]. *)
Definition oracle_map (n : nat) (tt : N -> bool) (y : N) : N :=
  if tt (inputs n y) then flip n y else y.

(** [f] is a black box for the truth table [tt] on [n] input lines. *)
Record implements (n : nat) (f : QuantumCircuit) (tt : N -> bool) : Prop := {
  impl_lines : num_qubits f = n + 1;
  impl_wf : Forall (wf (n + 1)) (data f);
  impl_classical : Forall (fun g => classical g = true) (data f);
  impl_forward : forall y, forward (data f) y = oracle_map n tt y
}.

(** Number of [n]-bit inputs a truth table sends to 1. *)
Definition count_on (n : nat) (tt : N -> bool) : nat :=
  List.length (filter tt (basis n)).

Definition constant_on (n : nat) (tt : N -> bool) : Prop :=
  forall x, (x < 2 ^ N.of_nat n)%N -> tt x = tt 0%N.

Definition balanced_on (n : nat) (tt : N -> bool) : Prop :=
  count_on n tt = 2 ^ n / 2.

(** A basis state with its lines below [k] reset. *)
Definition clear_low (k : nat) (y : N) : N := N.ldiff y (N.ones (N.of_nat k)).

Definition sign (b : bool) : Z := if b then (-1)%Z else 1%Z.

(** The gates [add_cx(qc, f"{state:0b}")] appends. *)
Definition x_gates (state : N) : list Instruction :=
  DJ.add_cx_gates 0 (rev (list_ascii_of_string (format_b state))).

(** The one-character memory string of a classical query. *)
Definition out_char (b : bool) : string := if b then "1" else "0".

(** [r] is the normal return of the string [s]. *)
Definition returns (r : result string) (s : string) : bool :=
  match r with
  | Ok s' => String.eqb s' s
  | Raise _ => false
  end.

(** The measurements [qc.measure(range(n), range(n))] appends. *)
Definition readout_plan (n : nat) : list Instruction :=
  map (fun i => Measure i i) (seq 0 n).

(** A memory string without a 1. *)
Definition all_zero (m : string) : bool :=
  forallb (Ascii.eqb "0") (list_ascii_of_string m).

(** The oracle of the scenario [n = 2], on-set drawn as [[1; 2]], no output
    flip: what [dj_function 2] builds on its balanced branch. *)
Definition example_balanced : QuantumCircuit :=
  mkCircuit 3 0
    [Barrier; XGate 0; MCXGate [0; 1] 2; XGate 0;
     Barrier; XGate 1; MCXGate [0; 1] 2; XGate 1; Barrier].

(** What [dj_function 2] builds on its constant branch with the output flip. *)
Definition example_constant : QuantumCircuit := mkCircuit 3 0 [XGate 2].

(** The four one-bit functions of the docstring of [deutschsAlgorithm.py], by
    their case number: constant 0, the input, the negated input, constant 1. *)
Definition deutsch_table (case : Z) (a : N) : bool :=
  if (case =? 2)%Z then bit a 0
  else if (case =? 3)%Z then negb (bit a 0)
  else if (case =? 4)%Z then true
  else false.

(** The class the docstring gives each case. *)
Definition deutsch_verdict (case : Z) : string :=
  if ((case =? 2) || (case =? 3))%Z then "balanced" else "constant".

Definition is_mcx (g : Instruction) : bool :=
  match g with MCXGate _ _ => true | _ => false end.

Definition is_barrier (g : Instruction) : bool :=
  match g with Barrier => true | _ => false end.

(** ** Bits of basis states *)

Section Bits.

Lemma bit_flip (q : nat) (y : N) (i : nat) :
  bit (flip q y) i = xorb (bit y i) (Nat.eqb q i).
Proof.
  unfold bit, flip. rewrite N.lxor_spec, N.pow2_bits_eqb. f_equal.
  destruct (Nat.eqb_spec q i) as [->|Hne].
  - apply N.eqb_refl.
  - apply N.eqb_neq. lia.
Qed.

Lemma flip_involutive (q : nat) (y : N) : flip q (flip q y) = y.
Proof.
  unfold flip. now rewrite N.lxor_assoc, N.lxor_nilpotent, N.lxor_0_r.
Qed.

Lemma bits_eq (a b : N) : (forall i, bit a i = bit b i) -> a = b.
Proof.
  intros H. apply N.bits_inj. intros m.
  specialize (H (N.to_nat m)). unfold bit in H. now rewrite N2Nat.id in H.
Qed.

Lemma lt_pow2_bits (y : N) (k : nat) :
  (y < 2 ^ N.of_nat k)%N <-> (forall i, k <= i -> bit y i = false).
Proof.
  split.
  - intros Hlt i Hi. unfold bit.
    destruct (N.eq_dec y 0) as [->|Hy]; [apply N.bits_0|].
    apply N.bits_above_log2.
    apply N.log2_lt_pow2 in Hlt; lia.
  - intros H. destruct (N.eq_dec y 0) as [->|Hy].
    + apply N.neq_0_lt_0, N.pow_nonzero. lia.
    + apply N.log2_lt_pow2; [lia|].
      destruct (N.lt_ge_cases (N.log2 y) (N.of_nat k)) as [|Hge]; [assumption|].
      specialize (H (N.to_nat (N.log2 y))). unfold bit in H.
      rewrite N2Nat.id, N.bit_log2 in H by assumption.
      assert (k <= N.to_nat (N.log2 y)) by lia.
      specialize (H H0). discriminate.
Qed.

Lemma flip_lt (k q : nat) (y : N) :
  q < k -> (y < 2 ^ N.of_nat k)%N -> (flip q y < 2 ^ N.of_nat k)%N.
Proof.
  intros Hq Hy. apply lt_pow2_bits. intros i Hi.
  rewrite bit_flip. rewrite (proj1 (lt_pow2_bits y k) Hy i Hi).
  destruct (Nat.eqb_spec q i); [lia|reflexivity].
Qed.

Lemma flip_add (q : nat) (y : N) :
  bit y q = false -> flip q y = (y + 2 ^ N.of_nat q)%N.
Proof.
  intros Hb. unfold flip. symmetry. apply N.add_nocarry_lxor.
  apply N.bits_inj. intros m. rewrite N.land_spec, N.pow2_bits_eqb, N.bits_0.
  destruct (N.eqb_spec (N.of_nat q) m) as [<-|]; [|apply andb_false_r].
  unfold bit in Hb. now rewrite Hb.
Qed.

Lemma bit_add_pow2_high (k : nat) (y x : N) :
  (forall i, i < k -> bit y i = false) -> (x < 2 ^ N.of_nat k)%N ->
  forall i, bit (y + x) i = if Nat.ltb i k then bit x i else bit y i.
Proof.
  intros Hy Hx i.
  assert (Hland : N.land y x = 0%N).
  { apply bits_eq. intros j. unfold bit. rewrite N.land_spec, N.bits_0.
    destruct (Nat.ltb_spec j k) as [Hj|Hj].
    - specialize (Hy j Hj). unfold bit in Hy. now rewrite Hy.
    - pose proof (proj1 (lt_pow2_bits x k) Hx j Hj) as Hxj. unfold bit in Hxj.
      rewrite Hxj. apply andb_false_r. }
  rewrite (N.add_nocarry_lxor _ _ Hland). unfold bit. rewrite N.lxor_spec.
  destruct (Nat.ltb_spec i k) as [Hi|Hi].
  - specialize (Hy i Hi). unfold bit in Hy. now rewrite Hy.
  - pose proof (proj1 (lt_pow2_bits x k) Hx i Hi) as Hxi. unfold bit in Hxi.
    rewrite Hxi. apply xorb_false_r.
Qed.

End Bits.

(** ** Sums over the basis *)

Section Sums.

Lemma sumZ_app (l1 l2 : list Z) : sumZ (l1 ++ l2) = (sumZ l1 + sumZ l2)%Z.
Proof. induction l1 as [|a l1 IH]; simpl; [reflexivity|]. rewrite IH. ring. Qed.

Lemma sumZ_perm (l l' : list Z) : Permutation l l' -> sumZ l = sumZ l'.
Proof. induction 1; simpl; lia. Qed.

Lemma sumZ_map_add (F G : N -> Z) (l : list N) :
  sumZ (map (fun y => (F y + G y)%Z) l) = (sumZ (map F l) + sumZ (map G l))%Z.
Proof. induction l as [|a l IH]; simpl; [reflexivity|]. rewrite IH. ring. Qed.

Lemma sumZ_map_scale (c : Z) (F : N -> Z) (l : list N) :
  sumZ (map (fun y => (c * F y)%Z) l) = (c * sumZ (map F l))%Z.
Proof. induction l as [|a l IH]; simpl; [ring|]. rewrite IH. ring. Qed.

Lemma sumZ_map_ext (F G : N -> Z) (l : list N) :
  (forall y, In y l -> F y = G y) -> sumZ (map F l) = sumZ (map G l).
Proof.
  induction l as [|a l IH]; simpl; intros H; [reflexivity|].
  rewrite (H a), IH; auto.
Qed.

Lemma sumZ_nonneg (F : N -> Z) (l : list N) :
  (forall y, 0 <= F y)%Z -> (0 <= sumZ (map F l))%Z.
Proof.
  intros H. induction l as [|a l IH]; simpl; [lia|]. specialize (H a). lia.
Qed.

Lemma pow2_of_nat (k : nat) : N.of_nat (2 ^ k) = (2 ^ N.of_nat k)%N.
Proof. now rewrite Nat2N.inj_pow. Qed.

Lemma in_basis (nq : nat) (y : N) : In y (basis nq) <-> (y < 2 ^ N.of_nat nq)%N.
Proof.
  unfold basis. rewrite in_map_iff, <- pow2_of_nat. split.
  - intros (i & <- & Hi). apply in_seq in Hi. lia.
  - intros H. exists (N.to_nat y). rewrite N2Nat.id. split; [reflexivity|].
    apply in_seq. lia.
Qed.

Lemma basis_NoDup (nq : nat) : NoDup (basis nq).
Proof.
  unfold basis. apply Finite.Injective_map_NoDup; [|apply seq_NoDup].
  intros a b. apply Nat2N.inj.
Qed.

Lemma seq_offset (a n : nat) : seq a n = map (fun i => a + i) (seq 0 n).
Proof.
  revert a. induction n as [|n IH]; intros a; simpl; [reflexivity|].
  f_equal; [lia|]. rewrite (IH (S a)), (IH 1), map_map.
  apply map_ext. intros i. lia.
Qed.

Lemma basis_S (k : nat) :
  basis (S k) = basis k ++ map (fun x => (2 ^ N.of_nat k + x)%N) (basis k).
Proof.
  unfold basis. replace (2 ^ S k) with (2 ^ k + 2 ^ k) by (simpl; lia).
  rewrite seq_app, map_app. f_equal. simpl.
  rewrite (seq_offset (2 ^ k)), !map_map. apply map_ext. intros i.
  rewrite <- pow2_of_nat. lia.
Qed.

(** Summing along an involution of the index set changes nothing. *)
Lemma reindex (pi : N -> N) (l : list N) :
  NoDup l ->
  (forall y, In y l -> In (pi y) l) ->
  (forall y, In y l -> pi (pi y) = y) ->
  Permutation (map pi l) l.
Proof.
  intros Hnd Hin Hinv. apply NoDup_Permutation_bis.
  - apply Finite.Injective_map_NoDup_in; [|assumption].
    intros a b Ha Hb Heq. rewrite <- (Hinv a Ha), <- (Hinv b Hb). now f_equal.
  - rewrite length_map. lia.
  - intros z Hz. apply in_map_iff in Hz as (y & <- & Hy). auto.
Qed.

Lemma sumZ_reindex (pi : N -> N) (F : N -> Z) (l : list N) :
  NoDup l ->
  (forall y, In y l -> In (pi y) l) ->
  (forall y, In y l -> pi (pi y) = y) ->
  sumZ (map (fun y => F (pi y)) l) = sumZ (map F l).
Proof.
  intros Hnd Hin Hinv. rewrite <- (map_map pi F).
  apply sumZ_perm, Permutation_map, reindex; assumption.
Qed.

(** A sub-selection of distinct indices carries no more weight than the
    whole list. *)
Lemma sumZ_incl (F : N -> Z) (l' l : list N) :
  (forall y, 0 <= F y)%Z -> NoDup l' -> incl l' l ->
  (sumZ (map F l') <= sumZ (map F l))%Z.
Proof.
  intros Hpos. revert l. induction l' as [|a t IH]; intros l Hnd Hincl; simpl.
  - now apply sumZ_nonneg.
  - inversion Hnd as [|? ? Hnotin Hnd']; subst.
    destruct (in_split a l (Hincl a (or_introl eq_refl))) as (l1 & l2 & ->).
    rewrite map_app, sumZ_app. simpl.
    assert (Ht : incl t (l1 ++ l2)).
    { intros z Hz. specialize (Hincl z (or_intror Hz)).
      apply in_app_or in Hincl. apply in_or_app.
      destruct Hincl as [|[->|]]; auto. contradiction. }
    specialize (IH (l1 ++ l2) Hnd' Ht). rewrite map_app, sumZ_app in IH. lia.
Qed.

End Sums.

(** ** The state keeps its weight *)

Section Norm.

Lemma forallb_bit_flip (t : nat) (cs : list nat) (y : N) :
  ~ In t cs -> forallb (bit (flip t y)) cs = forallb (bit y) cs.
Proof.
  induction cs as [|c cs IH]; simpl; intros Hnin; [reflexivity|].
  rewrite IH by tauto. rewrite bit_flip.
  destruct (Nat.eqb_spec t c) as [->|]; [tauto|]. now rewrite xorb_false_r.
Qed.

Lemma permute_involutive (nq : nat) (g : Instruction) (y : N) :
  wf nq g -> permute g (permute g y) = y.
Proof.
  destruct g as [q|q|c t|cs t| |q c]; simpl; intros Hwf; try reflexivity.
  - apply flip_involutive.
  - destruct (bit y c) eqn:Hc; [|now rewrite Hc].
    rewrite bit_flip, Hc.
    destruct (Nat.eqb_spec t c) as [->|]; [lia|]. simpl. apply flip_involutive.
  - destruct (forallb (bit y) cs) eqn:Hc; [|now rewrite Hc].
    rewrite forallb_bit_flip, Hc by tauto. apply flip_involutive.
Qed.

Lemma permute_lt (nq : nat) (g : Instruction) (y : N) :
  wf nq g -> (y < 2 ^ N.of_nat nq)%N -> (permute g y < 2 ^ N.of_nat nq)%N.
Proof.
  destruct g as [q|q|c t|cs t| |q c]; simpl; intros Hwf Hy; try assumption.
  - now apply flip_lt.
  - destruct (bit y c); [apply flip_lt; tauto|assumption].
  - destruct (forallb (bit y) cs); [apply flip_lt; tauto|assumption].
Qed.

Lemma norm2_permute (nq : nat) (g : Instruction) (amp : amplitudes) :
  wf nq g -> is_h g = false -> norm2 nq (apply g amp) = norm2 nq amp.
Proof.
  intros Hwf Hh. unfold norm2.
  transitivity (sumZ (map (fun y => (amp (permute g y) * amp (permute g y))%Z)
                          (basis nq))).
  { apply sumZ_map_ext. intros y _. destruct g; try reflexivity. discriminate. }
  apply (sumZ_reindex (permute g) (fun y => (amp y * amp y)%Z)).
  - apply basis_NoDup.
  - intros y Hy. apply in_basis. apply permute_lt; [assumption|]. now apply in_basis.
  - intros y _. now apply (permute_involutive nq).
Qed.

Lemma norm2_h (nq q : nat) (amp : amplitudes) :
  q < nq -> norm2 nq (apply (HGate q) amp) = (2 * norm2 nq amp)%Z.
Proof.
  intros Hq. unfold norm2.
  set (G := fun y => (apply (HGate q) amp y * apply (HGate q) amp y)%Z).
  set (A := fun y => (amp y * amp y)%Z).
  assert (Hre : forall F, sumZ (map (fun y => F (flip q y)) (basis nq))
                          = sumZ (map F (basis nq))).
  { intros F. apply sumZ_reindex.
    - apply basis_NoDup.
    - intros y Hy. apply in_basis, flip_lt; [assumption|]. now apply in_basis.
    - intros y _. apply flip_involutive. }
  assert (Hpair : sumZ (map (fun y => (G y + G (flip q y))%Z) (basis nq))
                  = sumZ (map (fun y => (2 * (A y + A (flip q y)))%Z) (basis nq))).
  { apply sumZ_map_ext. intros y _. unfold G, A, apply.
    rewrite bit_flip, Nat.eqb_refl, flip_involutive.
    destruct (bit y q); cbn [xorb negb]; ring. }
  rewrite sumZ_map_add, (Hre G) in Hpair.
  rewrite sumZ_map_scale, sumZ_map_add, (Hre A) in Hpair.
  fold G A. lia.
Qed.

Lemma evolve_app (gs1 gs2 : list Instruction) (amp : amplitudes) :
  evolve (gs1 ++ gs2) amp = evolve gs2 (evolve gs1 amp).
Proof. apply fold_left_app. Qed.

Lemma hadamards_app (gs1 gs2 : list Instruction) :
  hadamards (gs1 ++ gs2) = hadamards gs1 + hadamards gs2.
Proof. unfold hadamards. now rewrite filter_app, length_app. Qed.

Lemma norm2_evolve (nq : nat) (gs : list Instruction) (amp : amplitudes) :
  Forall (wf nq) gs ->
  norm2 nq (evolve gs amp) = (2 ^ Z.of_nat (hadamards gs) * norm2 nq amp)%Z.
Proof.
  intros Hwf. revert amp.
  induction Hwf as [|g gs Hg Hgs IH]; intros amp; simpl.
  - change (norm2 nq amp = (2 ^ 0 * norm2 nq amp)%Z). rewrite Z.pow_0_r. ring.
  - change (evolve (g :: gs) amp) with (evolve gs (apply g amp)).
    rewrite IH. unfold hadamards. cbn [filter].
    destruct (is_h g) eqn:Hh.
    + destruct g; try discriminate. rewrite (norm2_h nq) by exact Hg.
      cbn [List.length]. rewrite Nat2Z.inj_succ, Z.pow_succ_r by lia. ring.
    + now rewrite (norm2_permute nq).
Qed.

Lemma norm2_ket0 (nq : nat) : norm2 nq ket0 = 1%Z.
Proof.
  unfold norm2, basis.
  assert (H : forall k a, 0 < a ->
    sumZ (map (fun y => (ket0 y * ket0 y)%Z) (map N.of_nat (seq a k))) = 0%Z).
  { induction k as [|k IH]; intros a Ha; simpl; [reflexivity|].
    rewrite IH by lia. unfold ket0.
    destruct (N.eqb_spec (N.of_nat a) 0); [lia|reflexivity]. }
  assert (Hpos : 0 < 2 ^ nq) by (apply Nat.neq_0_lt_0, Nat.pow_nonzero; lia).
  destruct (2 ^ nq) as [|k]; [lia|]. simpl. rewrite H by lia. reflexivity.
Qed.

End Norm.

(** ** What a shot can return *)

Section Backend.

Lemma sample_from_sound (amp : amplitudes) (ys : list N) (r : Z) (y : N) :
  (0 <= r)%Z -> Aer.sample_from amp ys r = Some y -> In y ys /\ amp y <> 0%Z.
Proof.
  revert r. induction ys as [|a ys IH]; simpl; intros r Hr Hs; [discriminate|].
  destruct (Z.ltb_spec r (amp a * amp a)) as [Hlt|Hge].
  - injection Hs as <-. split; [now left|]. intros H0. rewrite H0 in Hlt. lia.
  - destruct (IH (r - amp a * amp a)%Z) as [Hin Hne]; [lia|assumption|]. tauto.
Qed.

Lemma sample_from_complete (amp : amplitudes) (ys : list N) (r : Z) :
  (0 <= r < sumZ (map (fun y => (amp y * amp y)%Z) ys))%Z ->
  exists y, Aer.sample_from amp ys r = Some y.
Proof.
  revert r. induction ys as [|a ys IH]; simpl; intros r Hr; [lia|].
  destruct (Z.ltb_spec r (amp a * amp a)) as [Hlt|Hge]; [now exists a|].
  apply IH. lia.
Qed.

(** On a circuit the builder accepts, a shot returns the readout of a basis
    state of non-zero amplitude. *)
Lemma run_outcome (qc : QuantumCircuit) (seed : N) :
  Forall (wf (num_qubits qc)) (data qc) ->
  exists y, (y < 2 ^ N.of_nat (num_qubits qc))%N /\
            evolve (data qc) ket0 y <> 0%Z /\
            Aer.run qc seed = Ok (memory (num_clbits qc) (readout (data qc) y 0)).
Proof.
  intros Hwf. unfold Aer.run.
  set (r := (Z.of_N seed mod 2 ^ Z.of_nat (hadamards (data qc)))%Z).
  assert (Hr : (0 <= r < 2 ^ Z.of_nat (hadamards (data qc)))%Z).
  { apply Z.mod_pos_bound. apply Z.pow_pos_nonneg; lia. }
  pose proof (norm2_evolve _ _ ket0 Hwf) as Hn. rewrite norm2_ket0 in Hn.
  unfold norm2 in Hn.
  destruct (sample_from_complete (evolve (data qc) ket0) (basis (num_qubits qc)) r)
    as [y Hy]; [lia|].
  rewrite Hy. exists y.
  apply sample_from_sound in Hy as [Hin Hne]; [|lia].
  apply in_basis in Hin. auto.
Qed.

End Backend.

(** ** Reversible gate lists on basis states *)

Section Reversible.

Lemma classical_not_h (g : Instruction) : classical g = true -> is_h g = false.
Proof. now destruct g. Qed.

Lemma evolve_backward (gs : list Instruction) (amp : amplitudes) (y : N) :
  Forall (fun g => is_h g = false) gs -> evolve gs amp y = amp (backward gs y).
Proof.
  intros Hc. revert amp. induction Hc as [|g gs Hg Hgs IH]; intros amp.
  - reflexivity.
  - change (evolve (g :: gs) amp) with (evolve gs (apply g amp)).
    rewrite IH. simpl. destruct g; try reflexivity. discriminate.
Qed.

Lemma forward_app (gs1 gs2 : list Instruction) (y : N) :
  forward (gs1 ++ gs2) y = forward gs2 (forward gs1 y).
Proof. apply fold_left_app. Qed.

Lemma backward_app (gs1 gs2 : list Instruction) (y : N) :
  backward (gs1 ++ gs2) y = backward gs1 (backward gs2 y).
Proof. apply fold_right_app. Qed.

Lemma backward_forward (nq : nat) (gs : list Instruction) (y : N) :
  Forall (wf nq) gs -> backward gs (forward gs y) = y.
Proof.
  intros Hwf. revert y. induction Hwf as [|g gs Hg Hgs IH]; intros y.
  - reflexivity.
  - simpl. change (fold_left _ gs (permute g y)) with (forward gs (permute g y)).
    change (fold_right permute _ gs) with (backward gs (forward gs (permute g y))).
    rewrite IH. now apply (permute_involutive nq).
Qed.

Lemma forward_backward (nq : nat) (gs : list Instruction) (y : N) :
  Forall (wf nq) gs -> forward gs (backward gs y) = y.
Proof.
  intros Hwf. revert y. induction Hwf as [|g gs Hg Hgs IH]; intros y.
  - reflexivity.
  - simpl. rewrite (permute_involutive nq) by assumption. apply IH.
Qed.

Lemma forward_lt (nq : nat) (gs : list Instruction) (y : N) :
  Forall (wf nq) gs -> (y < 2 ^ N.of_nat nq)%N ->
  (forward gs y < 2 ^ N.of_nat nq)%N.
Proof.
  intros Hwf. revert y. induction Hwf as [|g gs Hg Hgs IH]; intros y Hy.
  - assumption.
  - simpl. apply IH. now apply permute_lt.
Qed.

(** If the forward map is an involution, undoing the gates is the same map. *)
Lemma backward_of_involution (nq : nat) (gs : list Instruction) (pi : N -> N) :
  Forall (wf nq) gs ->
  (forall y, forward gs y = pi y) -> (forall y, pi (pi y) = y) ->
  forall y, backward gs y = pi y.
Proof.
  intros Hwf Hf Hinv y.
  rewrite <- (Hinv y) at 1. rewrite <- Hf. now apply (backward_forward nq).
Qed.

End Reversible.

(** ** [add_cx] on the unpadded binary string *)

Section AddCx.

Lemma filter_map_comm {A B : Type} (f : B -> bool) (g : A -> B) (l : list A) :
  filter f (map g l) = map g (filter (fun a => f (g a)) l).
Proof.
  induction l as [|a l IH]; simpl; [reflexivity|].
  destruct (f (g a)); simpl; now rewrite IH.
Qed.

Lemma bit_pos_S (p : positive) (i : nat) :
  bit (Npos p~1) (S i) = bit (Npos p) i /\ bit (Npos p~0) (S i) = bit (Npos p) i.
Proof.
  unfold bit. rewrite Nat2N.inj_succ, !N.testbit_succ_r_div2 by lia. now split.
Qed.

Lemma bit_1_S (i : nat) : bit 1 (S i) = false.
Proof.
  unfold bit. rewrite Nat2N.inj_succ, N.testbit_succ_r_div2 by lia. apply N.bits_0.
Qed.

Lemma filter_bit_shift (a : N) (b : N) (k : nat) :
  (forall i, bit a (S i) = bit b i) ->
  filter (bit a) (seq 1 k) = map S (filter (bit b) (seq 0 k)).
Proof.
  intros H. rewrite <- seq_shift, filter_map_comm. f_equal.
  apply filter_ext. exact H.
Qed.

Lemma add_cx_gates_lsb (p : positive) (q0 : nat) :
  DJ.add_cx_gates q0 (bits_lsb p)
  = map (fun i => XGate (q0 + i))
        (filter (bit (Npos p)) (seq 0 (List.length (bits_lsb p)))).
Proof.
  revert q0. induction p as [p IH|p IH|]; intros q0.
  - change (DJ.add_cx_gates q0 (bits_lsb p~1))
      with (XGate q0 :: DJ.add_cx_gates (S q0) (bits_lsb p)).
    change (filter (bit (N.pos p~1)) (seq 0 (List.length (bits_lsb p~1))))
      with (0 :: filter (bit (N.pos p~1)) (seq 1 (List.length (bits_lsb p)))).
    rewrite (filter_bit_shift _ (N.pos p)) by (intros i; apply bit_pos_S).
    cbn [map]. rewrite Nat.add_0_r, IH, map_map. f_equal.
    apply map_ext. intros i. f_equal. lia.
  - change (DJ.add_cx_gates q0 (bits_lsb p~0))
      with (DJ.add_cx_gates (S q0) (bits_lsb p)).
    change (filter (bit (N.pos p~0)) (seq 0 (List.length (bits_lsb p~0))))
      with (filter (bit (N.pos p~0)) (seq 1 (List.length (bits_lsb p)))).
    rewrite (filter_bit_shift _ (N.pos p)) by (intros i; apply bit_pos_S).
    rewrite IH, map_map. apply map_ext. intros i. f_equal. lia.
  - cbn. now rewrite Nat.add_0_r.
Qed.

Lemma pos_lt_pow2_length (p : positive) :
  (Npos p < 2 ^ N.of_nat (List.length (bits_lsb p)))%N.
Proof.
  induction p as [p IH|p IH|]; simpl bits_lsb; cbn [List.length];
    rewrite ?Nat2N.inj_succ, ?N.pow_succ_r'; lia.
Qed.

Lemma filter_bit_seq_more (s : N) (m d : nat) :
  (s < 2 ^ N.of_nat m)%N ->
  filter (bit s) (seq 0 (m + d)) = filter (bit s) (seq 0 m).
Proof.
  intros Hs. rewrite seq_app, filter_app, <- app_nil_r. f_equal.
  cbn [Nat.add]. generalize (Nat.le_refl m). generalize m at 2 3 as a.
  induction d as [|d IH]; intros a Ha; simpl; [reflexivity|].
  rewrite (proj1 (lt_pow2_bits s m) Hs a Ha). apply IH. lia.
Qed.

(** The gates are one [x] per set bit of [state], lowest line first,
    whatever the number of lines the state fits in. *)
Lemma x_gates_spec (n : nat) (state : N) :
  (state < 2 ^ N.of_nat n)%N ->
  x_gates state = map XGate (filter (bit state) (seq 0 n)).
Proof.
  intros Hs. unfold x_gates. destruct state as [|p].
  - cbn. rewrite <- (Nat.add_0_l n), filter_bit_seq_more; [reflexivity|].
    cbn. lia.
  - unfold format_b.
    rewrite list_ascii_of_string_of_list_ascii, rev_involutive, add_cx_gates_lsb.
    set (m := List.length (bits_lsb p)).
    pose proof (pos_lt_pow2_length p) as Hm. fold m in Hm.
    cbn [Nat.add]. f_equal.
    destruct (Nat.le_ge_cases m n) as [Hle|Hle].
    + replace n with (m + (n - m)) by lia. now rewrite filter_bit_seq_more.
    + replace m with (n + (m - n)) by lia. now rewrite filter_bit_seq_more.
Qed.

Lemma ltb_S (i n : nat) : Nat.ltb i (S n) = Nat.eqb n i || Nat.ltb i n.
Proof.
  destruct (Nat.ltb_spec i (S n)), (Nat.eqb_spec n i), (Nat.ltb_spec i n);
    simpl; auto; lia.
Qed.

Lemma forward_x_bits (s : N) (n : nat) (y : N) (i : nat) :
  bit (forward (map XGate (filter (bit s) (seq 0 n))) y) i
  = xorb (bit y i) (bit s i && Nat.ltb i n).
Proof.
  induction n as [|n IH].
  - simpl. now rewrite andb_false_r, xorb_false_r.
  - rewrite seq_S, filter_app, map_app, forward_app, ltb_S. cbn [Nat.add filter].
    destruct (bit s n) eqn:Hn; cbn [map forward fold_left permute].
    + rewrite bit_flip, IH.
      destruct (Nat.eqb_spec n i) as [->|Hne].
      * rewrite Hn, Nat.ltb_irrefl. cbn. now rewrite xorb_false_r.
      * cbn. now rewrite xorb_false_r.
    + rewrite IH. destruct (Nat.eqb_spec n i) as [->|Hne]; [|reflexivity].
      now rewrite Hn.
Qed.

Lemma forward_x_gates (n : nat) (state y : N) :
  (state < 2 ^ N.of_nat n)%N -> forward (x_gates state) y = N.lxor y state.
Proof.
  intros Hs. rewrite (x_gates_spec n) by assumption.
  apply bits_eq. intros i. rewrite forward_x_bits. unfold bit at 3.
  rewrite N.lxor_spec. fold (bit y i) (bit state i). f_equal.
  destruct (Nat.ltb_spec i n); [apply andb_true_r|].
  rewrite andb_false_r. symmetry. now apply (lt_pow2_bits state n).
Qed.

Lemma x_gates_wf (n nq : nat) (state : N) :
  (state < 2 ^ N.of_nat n)%N -> n <= nq ->
  Forall (wf nq) (x_gates state) /\
  Forall (fun g => classical g = true) (x_gates state).
Proof.
  intros Hs Hn. rewrite (x_gates_spec n) by assumption.
  split; apply Forall_forall; intros g Hg; apply in_map_iff in Hg as (i & <- & Hi).
  - apply filter_In in Hi as [Hi _]. apply in_seq in Hi. simpl. lia.
  - reflexivity.
Qed.

End AddCx.

(** ** What a generated oracle computes *)

Section Oracle.

Lemma bit_inputs (n : nat) (y : N) (i : nat) :
  bit (inputs n y) i = bit y i && Nat.ltb i n.
Proof.
  unfold bit, inputs. destruct (Nat.ltb_spec i n).
  - rewrite N.mod_pow2_bits_low by lia. now rewrite andb_true_r.
  - rewrite N.mod_pow2_bits_high by lia. now rewrite andb_false_r.
Qed.

Lemma inputs_flip (n : nat) (y : N) : inputs n (flip n y) = inputs n y.
Proof.
  apply bits_eq. intros i. rewrite !bit_inputs, bit_flip.
  destruct (Nat.ltb_spec i n); [|now rewrite !andb_false_r].
  destruct (Nat.eqb_spec n i); [lia|]. now rewrite xorb_false_r.
Qed.

Lemma inputs_small (n : nat) (x : N) : (x < 2 ^ N.of_nat n)%N -> inputs n x = x.
Proof. intros H. now apply N.mod_small. Qed.

Lemma oracle_map_involutive (n : nat) (tt : N -> bool) (y : N) :
  oracle_map n tt (oracle_map n tt y) = y.
Proof.
  unfold oracle_map. destruct (tt (inputs n y)) eqn:Ht.
  - now rewrite inputs_flip, Ht, flip_involutive.
  - now rewrite Ht.
Qed.

Lemma bit_lnot (n : nat) (s : N) (i : nat) :
  bit (N.lnot s (N.of_nat n)) i = xorb (bit s i) (Nat.ltb i n).
Proof.
  unfold bit. destruct (Nat.ltb_spec i n).
  - rewrite N.lnot_spec_low by lia. now rewrite xorb_true_r.
  - rewrite N.lnot_spec_high by lia. now rewrite xorb_false_r.
Qed.

Lemma lnot_lt (n : nat) (s : N) :
  (s < 2 ^ N.of_nat n)%N -> (N.lnot s (N.of_nat n) < 2 ^ N.of_nat n)%N.
Proof.
  intros Hs. apply lt_pow2_bits. intros i Hi. rewrite bit_lnot.
  rewrite (proj1 (lt_pow2_bits s n) Hs i Hi).
  destruct (Nat.ltb_spec i n); [lia|reflexivity].
Qed.

(** After the [x] gates of [s], all input lines read 1 exactly on the
    bitwise complement of [s]. *)
Lemma all_ones_iff_complement (n : nat) (s y : N) :
  (s < 2 ^ N.of_nat n)%N ->
  forallb (bit (N.lxor y s)) (seq 0 n) = (inputs n y =? N.lnot s (N.of_nat n))%N.
Proof.
  intros Hs.
  assert (Hx : forall i, bit (N.lxor y s) i = xorb (bit y i) (bit s i)).
  { intros i. unfold bit. apply N.lxor_spec. }
  destruct (N.eqb_spec (inputs n y) (N.lnot s (N.of_nat n))) as [Heq|Hne].
  - apply forallb_forall. intros i Hi. apply in_seq in Hi.
    assert (Hb : bit (inputs n y) i = bit (N.lnot s (N.of_nat n)) i) by now rewrite Heq.
    rewrite bit_inputs, bit_lnot in Hb.
    replace (Nat.ltb i n) with true in Hb by (symmetry; apply Nat.ltb_lt; lia).
    rewrite Hx. rewrite andb_true_r in Hb. rewrite Hb. now destruct (bit s i).
  - destruct (forallb (bit (N.lxor y s)) (seq 0 n)) eqn:Hall; [|reflexivity].
    exfalso. apply Hne. apply bits_eq. intros i.
    rewrite bit_inputs, bit_lnot.
    destruct (Nat.ltb_spec i n) as [Hi|Hi].
    + rewrite forallb_forall in Hall. specialize (Hall i).
      rewrite Hx in Hall. rewrite andb_true_r.
      assert (Hin : In i (seq 0 n)) by (apply in_seq; lia).
      specialize (Hall Hin). destruct (bit y i), (bit s i); auto; discriminate.
    + rewrite andb_false_r, xorb_false_r. symmetry. now apply (lt_pow2_bits s n).
Qed.

(** The gates one element of [on_states] contributes. *)
Lemma on_state_block_data (n : nat) (qc : QuantumCircuit) (s : N) :
  data (DJ.on_state_block n qc s)
  = data qc ++ Barrier :: x_gates s ++ MCXGate (seq 0 n) n :: x_gates s.
Proof.
  unfold DJ.on_state_block, DJ.add_cx, mcx, barrier, extend, x_gates. cbn [data].
  rewrite <- !app_assoc. reflexivity.
Qed.

Lemma on_state_blocks_data (n : nat) (os : list N) (qc : QuantumCircuit) :
  data (fold_left (DJ.on_state_block n) os qc)
  = data qc ++ flat_map (fun s => Barrier :: x_gates s
                                    ++ MCXGate (seq 0 n) n :: x_gates s) os
  /\ num_qubits (fold_left (DJ.on_state_block n) os qc) = num_qubits qc.
Proof.
  revert qc. induction os as [|s os IH]; intros qc; cbn [fold_left flat_map].
  - now rewrite app_nil_r.
  - destruct (IH (DJ.on_state_block n qc s)) as [Hd Hq].
    rewrite Hd, Hq, on_state_block_data, <- app_assoc. split; reflexivity.
Qed.

Lemma lxor_flip_lxor (n : nat) (y s : N) : N.lxor (flip n (N.lxor y s)) s = flip n y.
Proof.
  unfold flip. apply N.bits_inj. intros m. rewrite !N.lxor_spec.
  now destruct (N.testbit y m), (N.testbit s m), (N.testbit (2 ^ N.of_nat n) m).
Qed.

Lemma lxor_lxor (y s : N) : N.lxor (N.lxor y s) s = y.
Proof. now rewrite N.lxor_assoc, N.lxor_nilpotent, N.lxor_0_r. Qed.

(** One block flips the output line exactly when the input lines hold the
    complement of [s], and leaves the input lines as they were. *)
Lemma forward_block (n : nat) (s y : N) :
  (s < 2 ^ N.of_nat n)%N ->
  forward (Barrier :: x_gates s ++ MCXGate (seq 0 n) n :: x_gates s) y
  = if (inputs n y =? N.lnot s (N.of_nat n))%N then flip n y else y.
Proof.
  intros Hs.
  change (forward (Barrier :: ?gs) y) with (forward gs y).
  rewrite forward_app, (forward_x_gates n) by assumption.
  change (forward (MCXGate ?cs ?t :: ?gs) ?z)
    with (forward gs (permute (MCXGate cs t) z)).
  rewrite (forward_x_gates n) by assumption. cbn [permute].
  rewrite all_ones_iff_complement by assumption.
  destruct (inputs n y =? N.lnot s (N.of_nat n))%N.
  - apply lxor_flip_lxor.
  - apply lxor_lxor.
Qed.

Lemma forward_blocks (n : nat) (os : list N) (b : bool) (y : N) :
  Forall (fun s => (s < 2 ^ N.of_nat n)%N) os ->
  forward (flat_map (fun s => Barrier :: x_gates s
                                ++ MCXGate (seq 0 n) n :: x_gates s) os)
          (if b then flip n y else y)
  = if dj_table n b os (inputs n y) then flip n y else y.
Proof.
  intros Hos. revert b. induction Hos as [|s os Hs Hos IH]; intros b.
  - reflexivity.
  - cbn [flat_map]. rewrite forward_app, forward_block by assumption.
    change (dj_table n b (s :: os) (inputs n y))
      with (dj_table n (xorb b (inputs n y =? N.lnot s (N.of_nat n))%N) os
                     (inputs n y)).
    replace (inputs n (if b then flip n y else y)) with (inputs n y)
      by (destruct b; [now rewrite inputs_flip|reflexivity]).
    rewrite <- IH. f_equal.
    destruct b, (inputs n y =? N.lnot s (N.of_nat n))%N; cbn [xorb];
      try reflexivity.
    apply flip_involutive.
Qed.

End Oracle.

Section Generated.

Lemma dj_function_implements (n : nat) (c1 constant : bool) (os : list N)
    (f : QuantumCircuit) :
  Forall (fun s => (s < 2 ^ N.of_nat n)%N) os ->
  DJ.dj_function n c1 constant os = Ok f ->
  implements n f (dj_table n c1 (if constant then [] else os)).
Proof.
  intros Hos Hf. unfold DJ.dj_function in Hf.
  set (qc0 := if c1 then x (new (n + 1) 0) n else new (n + 1) 0) in Hf.
  assert (Hq0 : num_qubits qc0 = n + 1) by (now destruct c1).
  assert (Hd0 : data qc0 = if c1 then [XGate n] else []) by (now destruct c1).
  assert (Hw0 : Forall (wf (n + 1)) (data qc0)).
  { rewrite Hd0. destruct c1; repeat constructor. simpl. lia. }
  assert (Hc0 : Forall (fun g => classical g = true) (data qc0)).
  { rewrite Hd0. destruct c1; repeat constructor. }
  assert (Hf0 : forall y, forward (data qc0) y = if c1 then flip n y else y).
  { intros y. rewrite Hd0. now destruct c1. }
  destruct constant.
  - injection Hf as <-. split; auto.
  - injection Hf as <-.
    destruct (on_state_blocks_data n os qc0) as [Hd Hq].
    unfold barrier, extend. split; cbn [num_qubits data].
    + now rewrite Hq.
    + rewrite Hd. apply Forall_app.
      split; [apply Forall_app; split; [assumption|]|repeat constructor].
      apply Forall_flat_map. revert Hos. apply Forall_impl. intros s Hs.
      destruct (x_gates_wf n (n + 1) s Hs ltac:(lia)) as [Hw _].
      constructor; [exact I|]. apply Forall_app. split; [assumption|].
      constructor; [|assumption]. simpl. split; [lia|].
      intros Hin. apply in_seq in Hin. lia.
    + rewrite Hd. apply Forall_app.
      split; [apply Forall_app; split; [assumption|]|repeat constructor].
      apply Forall_flat_map. revert Hos. apply Forall_impl. intros s Hs.
      destruct (x_gates_wf n (n + 1) s Hs ltac:(lia)) as [_ Hc].
      constructor; [reflexivity|]. apply Forall_app. split; [assumption|].
      constructor; [reflexivity|assumption].
    + intros y. rewrite Hd, !forward_app, Hf0, forward_blocks by assumption.
      reflexivity.
Qed.

Lemma dj_table_nil (n : nat) (c1 : bool) : constant_on n (dj_table n c1 []).
Proof. intros x' _. reflexivity. Qed.

Lemma lnot_inj (n : nat) (a b : N) :
  N.lnot a (N.of_nat n) = N.lnot b (N.of_nat n) -> a = b.
Proof.
  intros H. rewrite <- (N.lnot_involutive a (N.of_nat n)), H.
  apply N.lnot_involutive.
Qed.

Lemma dj_table_nodup (n : nat) (c1 : bool) (os : list N) (x' : N) :
  NoDup os ->
  dj_table n c1 os x'
  = xorb c1 (existsb (fun s => (x' =? N.lnot s (N.of_nat n))%N) os).
Proof.
  intros Hnd. revert c1. induction Hnd as [|s os Hnin Hnd IH]; intros c1.
  - simpl. now rewrite xorb_false_r.
  - change (dj_table n c1 (s :: os) x')
      with (dj_table n (xorb c1 (x' =? N.lnot s (N.of_nat n))%N) os x').
    rewrite IH. cbn [existsb].
    destruct (N.eqb_spec x' (N.lnot s (N.of_nat n))) as [Heq|Hne]; cbn [orb].
    + replace (existsb _ os) with false; [now rewrite xorb_false_r|].
      symmetry. apply not_true_is_false. intros Hex.
      apply existsb_exists in Hex as (s' & Hin & Hs').
      apply N.eqb_eq in Hs'. rewrite Heq in Hs'. apply lnot_inj in Hs'.
      now subst.
    + now rewrite xorb_false_r.
Qed.

Lemma count_complements (n : nat) (os : list N) :
  NoDup os -> Forall (fun s => (s < 2 ^ N.of_nat n)%N) os ->
  List.length (filter (fun x' => existsb (fun s => (x' =? N.lnot s (N.of_nat n))%N) os)
                      (basis n))
  = List.length os.
Proof.
  intros Hnd Hos.
  rewrite <- (length_map (fun s => N.lnot s (N.of_nat n)) os).
  apply Permutation_length, NoDup_Permutation.
  - apply NoDup_filter, basis_NoDup.
  - apply Finite.Injective_map_NoDup; [|assumption].
    intros a b. apply lnot_inj.
  - intros x'. rewrite filter_In, in_basis, existsb_exists, in_map_iff. split.
    + intros (_ & s & Hin & Heq). apply N.eqb_eq in Heq. now exists s.
    + intros (s & <- & Hin). rewrite Forall_forall in Hos. split.
      * apply lnot_lt. auto.
      * exists s. split; [assumption|apply N.eqb_refl].
Qed.

Lemma basis_length (n : nat) : List.length (basis n) = 2 ^ n.
Proof. unfold basis. now rewrite length_map, length_seq. Qed.

Lemma pow2_half (n : nat) : 1 <= n -> 2 ^ n = 2 ^ n / 2 + 2 ^ n / 2.
Proof.
  intros Hn. destruct n as [|n]; [lia|].
  rewrite Nat.pow_succ_r', Nat.mul_comm, Nat.div_mul by lia. lia.
Qed.

Lemma dj_table_balanced (n : nat) (c1 : bool) (os : list N) :
  1 <= n -> DJ.choice_without_replacement n os ->
  balanced_on n (dj_table n c1 os).
Proof.
  intros Hn (Hnd & Hos & Hlen). unfold balanced_on, count_on.
  rewrite (filter_ext _ _ (fun x' => dj_table_nodup n c1 os x' Hnd)).
  pose proof (count_complements n os Hnd Hos) as Hc.
  destruct c1.
  - pose proof (filter_length
      (fun x' => existsb (fun s => (x' =? N.lnot s (N.of_nat n))%N) os) (basis n)) as Hfl.
    rewrite basis_length, Hc, Hlen in Hfl.
    rewrite (filter_ext _ (fun x' => negb (existsb
               (fun s => (x' =? N.lnot s (N.of_nat n))%N) os)))
      by (intros a; reflexivity).
    pose proof (pow2_half n Hn). lia.
  - rewrite (filter_ext _ (fun x' => existsb
               (fun s => (x' =? N.lnot s (N.of_nat n))%N) os))
      by (intros a; reflexivity).
    lia.
Qed.

End Generated.

(** ** One classical query *)

Section ClassicalQuery.

Lemma readout_app (gs1 gs2 : list Instruction) (y creg : N) :
  readout (gs1 ++ gs2) y creg = readout gs2 y (readout gs1 y creg).
Proof.
  revert creg. induction gs1 as [|g gs1 IH]; intros creg; [reflexivity|].
  destruct g; simpl; apply IH.
Qed.

Lemma readout_no_measure (gs : list Instruction) (y creg : N) :
  Forall (fun g => match g with Measure _ _ => False | _ => True end) gs ->
  readout gs y creg = creg.
Proof.
  induction 1 as [|g gs Hg Hgs IH]; [reflexivity|].
  destruct g; simpl; try assumption. contradiction.
Qed.

Lemma classical_no_measure (gs : list Instruction) :
  Forall (fun g => classical g = true) gs ->
  Forall (fun g => match g with Measure _ _ => False | _ => True end) gs.
Proof. apply Forall_impl. intros g. destruct g; simpl; auto. discriminate. Qed.

Lemma classical_no_h (gs : list Instruction) :
  Forall (fun g => classical g = true) gs -> Forall (fun g => is_h g = false) gs.
Proof. apply Forall_impl. exact classical_not_h. Qed.

Lemma hadamards_no_h (gs : list Instruction) :
  Forall (fun g => is_h g = false) gs -> hadamards gs = 0.
Proof.
  unfold hadamards. induction 1 as [|g gs Hg Hgs IH]; [reflexivity|].
  simpl. now rewrite Hg.
Qed.

Lemma query_circuit_shape (n : nat) (f : QuantumCircuit) (tt : N -> bool) (state : N) :
  implements n f tt ->
  num_qubits (DJ.query_circuit f state) = n + 1 /\
  num_clbits (DJ.query_circuit f state) = 1 /\
  data (DJ.query_circuit f state) = (x_gates state ++ data f) ++ [Measure n 0].
Proof.
  intros [Hl _ _ _]. unfold DJ.query_circuit. rewrite Hl, Nat.add_sub.
  repeat split.
Qed.

(** A query returns the bit of the truth table, whatever the draw. *)
Lemma query_result (n : nat) (f : QuantumCircuit) (tt : N -> bool) (state seed : N) :
  implements n f tt -> (state < 2 ^ N.of_nat n)%N ->
  Aer.run (DJ.query_circuit f state) seed = Ok (out_char (tt state)).
Proof.
  intros Himpl Hs.
  destruct (query_circuit_shape n f tt state Himpl) as (Hq & Hc & Hd).
  destruct Himpl as [Hl Hwf Hcl Hfw].
  destruct (x_gates_wf n (n + 1) state Hs ltac:(lia)) as [Hxw Hxc].
  assert (Hwfall : Forall (wf (n + 1)) (data (DJ.query_circuit f state))).
  { rewrite Hd. apply Forall_app. split; [apply Forall_app; split; assumption|].
    repeat constructor. simpl. lia. }
  assert (Hnoh : Forall (fun g => is_h g = false) (data (DJ.query_circuit f state))).
  { rewrite Hd. apply Forall_app.
    split; [apply Forall_app; split; now apply classical_no_h|].
    repeat constructor. }
  destruct (run_outcome (DJ.query_circuit f state) seed) as (y & Hy & Hamp & Hrun).
  { now rewrite Hq. }
  rewrite Hrun, Hc. f_equal.
  rewrite evolve_backward in Hamp by assumption.
  assert (Hback : backward (data (DJ.query_circuit f state)) y = 0%N).
  { unfold ket0 in Hamp.
    destruct (N.eqb_spec (backward (data (DJ.query_circuit f state)) y) 0);
      [assumption|contradiction]. }
  assert (Hyv : y = oracle_map n tt state).
  { rewrite <- (forward_backward (n + 1) _ y Hwfall), Hback, Hd.
    rewrite !forward_app, (forward_x_gates n), Hfw, N.lxor_0_l by assumption.
    reflexivity. }
  rewrite Hd, !readout_app.
  rewrite (readout_no_measure (x_gates state)) by now apply classical_no_measure.
  rewrite (readout_no_measure (data f)) by now apply classical_no_measure.
  assert (Hbit : bit y n = tt state).
  { rewrite Hyv. unfold oracle_map. rewrite inputs_small by assumption.
    pose proof (proj1 (lt_pow2_bits state n) Hs n (Nat.le_refl n)) as Hb.
    destruct (tt state); [|assumption].
    now rewrite bit_flip, Hb, Nat.eqb_refl. }
  cbn [readout]. rewrite Hbit. now destruct (tt state).
Qed.

End ClassicalQuery.

(** ** The classical loop *)

Section ClassicalLoop.

Variables (n : nat) (f : QuantumCircuit) (tt : N -> bool) (rng : nat -> N).
Hypothesis Himpl : implements n f tt.

Lemma out_char_inj (a b : bool) : out_char a = out_char b -> a = b.
Proof. now destruct a, b. Qed.

Lemma mem_same (r : bool) (outputs : list string) :
  In (out_char r) outputs -> DJ.mem (out_char r) outputs = true.
Proof.
  intros Hin. apply existsb_exists. exists (out_char r).
  split; [assumption|apply String.eqb_refl].
Qed.

Lemma mem_other (r v : bool) (outputs : list string) :
  (forall o, In o outputs -> o = out_char v) -> r <> v ->
  DJ.mem (out_char r) outputs = false.
Proof.
  intros Hall Hne. apply not_true_is_false. intros Hm.
  apply existsb_exists in Hm as (o & Hin & Heq).
  apply String.eqb_eq in Heq. rewrite (Hall o Hin) in Heq.
  now apply out_char_inj in Heq.
Qed.

(** While every output agrees, the loop runs to the end of its list. *)
Lemma classical_loop_same (rest : list N) (q : nat) (outputs : list string) (v : bool) :
  Forall (fun s => (s < 2 ^ N.of_nat n)%N) rest ->
  (forall o, In o outputs -> o = out_char v) ->
  (forall s, In s rest -> tt s = v) ->
  DJ.classical_loop f rng rest q outputs
  = (Ok ("constant", q + List.length rest), map (DJ.query_circuit f) rest).
Proof.
  intros Hrest. revert q outputs.
  induction Hrest as [|s rest Hs Hrest IH]; intros q outputs Hout Hsame.
  - simpl. now rewrite Nat.add_0_r.
  - cbn [DJ.classical_loop map]. rewrite (query_result n f tt) by assumption.
    rewrite (Hsame s) by now left.
    assert (Hcond : DJ.nonempty outputs && negb (DJ.mem (out_char v) outputs) = false).
    { destruct outputs as [|o outputs]; [reflexivity|]. cbn [DJ.nonempty andb].
      rewrite mem_same; [reflexivity|]. left. apply Hout. now left. }
    rewrite Hcond, IH.
    + cbn [List.length]. do 3 f_equal. lia.
    + intros o Ho. apply in_app_or in Ho as [Ho|[<-|[]]]; auto.
    + intros s' Hs'. apply Hsame. now right.
Qed.

(** The loop returns at the first output that differs from the recorded
    ones. *)
Lemma classical_loop_differs (pre : list N) (s : N) (post : list N) (q : nat)
    (outputs : list string) (v : bool) :
  Forall (fun s' => (s' < 2 ^ N.of_nat n)%N) (pre ++ s :: post) ->
  outputs <> [] ->
  (forall o, In o outputs -> o = out_char v) ->
  (forall s', In s' pre -> tt s' = v) ->
  tt s <> v ->
  DJ.classical_loop f rng (pre ++ s :: post) q outputs
  = (Ok ("balanced", q + List.length pre + 1), map (DJ.query_circuit f) (pre ++ [s])).
Proof.
  revert q outputs. induction pre as [|p pre IH]; intros q outputs Hlt Hne Hout Hpre Hs.
  - cbn [app DJ.classical_loop map]. inversion Hlt as [|? ? Hs0 _]; subst.
    rewrite (query_result n f tt) by assumption.
    rewrite (mem_other (tt s) v) by assumption.
    destruct outputs; [contradiction|]. cbn [DJ.nonempty andb negb List.length].
    do 3 f_equal. lia.
  - cbn [app DJ.classical_loop map]. inversion Hlt as [|? ? Hp Hlt']; subst.
    rewrite (query_result n f tt) by assumption.
    rewrite (Hpre p) by now left.
    assert (Hcond : DJ.nonempty outputs && negb (DJ.mem (out_char v) outputs) = false).
    { destruct outputs as [|o outputs]; [contradiction|]. cbn [DJ.nonempty andb].
      rewrite mem_same; [reflexivity|]. left. apply Hout. now left. }
    rewrite Hcond, IH; auto.
    + cbn [List.length]. do 3 f_equal. lia.
    + intros Happ. now destruct outputs.
    + intros o Ho. apply in_app_or in Ho as [Ho|[<-|[]]]; auto.
    + intros s' Hs'. apply Hpre. now right.
Qed.

Lemma first_differ (p : N -> bool) (l : list N) :
  forallb p l = false ->
  exists pre s post, l = pre ++ s :: post /\ (forall s', In s' pre -> p s' = true)
                     /\ p s = false.
Proof.
  induction l as [|a l IH]; simpl; intros H; [discriminate|].
  destruct (p a) eqn:Ha.
  - destruct (IH H) as (pre & s & post & -> & Hpre & Hs).
    exists (a :: pre), s, post. repeat split; auto.
    intros s' [<-|Hin]; auto.
  - exists [], a, l. repeat split; auto.
Qed.

End ClassicalLoop.

(** ** Hadamard layers *)

Section Hadamard.

Lemma bit_clear_low (k : nat) (y : N) (i : nat) :
  bit (clear_low k y) i = bit y i && negb (Nat.ltb i k).
Proof.
  unfold bit, clear_low. rewrite N.ldiff_spec. f_equal. f_equal.
  destruct (Nat.ltb_spec i k).
  - apply N.ones_spec_low. lia.
  - apply N.ones_spec_high. lia.
Qed.

Lemma evolve_snoc (gs : list Instruction) (g : Instruction) (amp : amplitudes) :
  evolve (gs ++ [g]) amp = apply g (evolve gs amp).
Proof. now rewrite evolve_app. Qed.

(** On a state that vanishes wherever one of the first [n] lines is 1,
    Hadamards on the first [k <= n] lines spread the amplitude over those
    lines. *)
Lemma layer_spreads (n : nat) (amp : amplitudes) :
  (forall z i, i < n -> bit z i = true -> amp z = 0%Z) ->
  forall k y, k <= n -> evolve (map HGate (seq 0 k)) amp y = amp (clear_low k y).
Proof.
  intros Hsup. induction k as [|k IH]; intros y Hk.
  - simpl. f_equal. apply bits_eq. intros i.
    rewrite bit_clear_low. now rewrite andb_true_r.
  - rewrite seq_S, map_app. cbn [Nat.add map]. rewrite evolve_snoc.
    cbn [apply]. rewrite !IH by lia.
    assert (Hflip : bit y k = true -> clear_low k (flip k y) = clear_low (S k) y).
    { intros Hb. apply bits_eq. intros i.
      rewrite !bit_clear_low, bit_flip, ltb_S.
      destruct (Nat.eqb_spec k i) as [->|Hne]; cbn [orb negb].
      - rewrite Hb. now rewrite andb_false_r.
      - now rewrite xorb_false_r. }
    assert (Hkeep : bit y k = false -> clear_low k y = clear_low (S k) y).
    { intros Hb. apply bits_eq. intros i.
      rewrite !bit_clear_low, ltb_S.
      destruct (Nat.eqb_spec k i) as [->|Hne]; cbn [orb negb]; [|reflexivity].
      rewrite Hb. now rewrite andb_false_r. }
    assert (Hzero : forall z, bit z k = true -> amp (clear_low k z) = 0%Z).
    { intros z Hz. apply (Hsup _ k); [lia|].
      rewrite bit_clear_low, Hz, Nat.ltb_irrefl. reflexivity. }
    destruct (bit y k) eqn:Hb.
    + rewrite (Hzero y Hb), Hflip by reflexivity. lia.
    + rewrite Hkeep by reflexivity.
      rewrite (Hzero (flip k y)); [lia|].
      now rewrite bit_flip, Hb, Nat.eqb_refl.
Qed.

(** Preparation: [x] on the output line, then Hadamards on all lines, gives
    every basis state amplitude [+1] or [-1] by its output bit. *)
Lemma prepared_state (n : nat) (y : N) :
  (y < 2 ^ N.of_nat (n + 1))%N ->
  evolve (XGate n :: map HGate (seq 0 (n + 1))) ket0 y = sign (bit y n).
Proof.
  intros Hy.
  change (evolve (XGate n :: ?gs) ket0) with (evolve gs (apply (XGate n) ket0)).
  rewrite Nat.add_1_r, seq_S, map_app. cbn [Nat.add map]. rewrite evolve_snoc.
  assert (Hsup : forall z i, i < n -> bit z i = true -> apply (XGate n) ket0 z = 0%Z).
  { intros z i Hi Hb. cbn [apply permute]. unfold ket0.
    destruct (N.eqb_spec (flip n z) 0) as [H0|]; [|reflexivity].
    assert (Hbi : bit (flip n z) i = true).
    { rewrite bit_flip, Hb. destruct (Nat.eqb_spec n i); [lia|reflexivity]. }
    rewrite H0 in Hbi. unfold bit in Hbi. now rewrite N.bits_0 in Hbi. }
  assert (Hlayer : forall z, (z < 2 ^ N.of_nat (S n))%N ->
    evolve (map HGate (seq 0 n)) (apply (XGate n) ket0) z
    = if bit z n then 1%Z else 0%Z).
  { intros z Hz. rewrite (layer_spreads n _ Hsup n z (Nat.le_refl n)).
    cbn [apply permute].
    assert (Hval : flip n (clear_low n z) = if bit z n then 0%N else (2 ^ N.of_nat n)%N).
    { apply bits_eq. intros i. rewrite bit_flip, bit_clear_low.
      destruct (Nat.ltb_spec i n) as [Hi|Hi].
      - rewrite andb_false_r. destruct (Nat.eqb_spec n i); [lia|].
        destruct (bit z n); unfold bit; rewrite ?N.bits_0, ?N.pow2_bits_eqb.
        + reflexivity.
        + symmetry. apply N.eqb_neq. lia.
      - rewrite andb_true_r. destruct (Nat.eqb_spec n i) as [->|Hne].
        + destruct (bit z i); unfold bit; rewrite ?N.bits_0, ?N.pow2_bits_eqb.
          * reflexivity.
          * now rewrite N.eqb_refl.
        + rewrite (proj1 (lt_pow2_bits z (S n)) Hz i) by lia.
          destruct (bit z n); unfold bit; rewrite ?N.bits_0, ?N.pow2_bits_eqb.
          * reflexivity.
          * symmetry. apply N.eqb_neq. lia. }
    rewrite Hval. unfold ket0. destruct (bit z n); [reflexivity|].
    destruct (N.eqb_spec (2 ^ N.of_nat n) 0) as [H0|]; [|reflexivity].
    exfalso. revert H0. apply N.pow_nonzero. lia. }
  rewrite Nat.add_1_r in Hy.
  cbn [apply]. rewrite !Hlayer by (try apply flip_lt; auto).
  rewrite bit_flip, Nat.eqb_refl. now destruct (bit y n).
Qed.

(** Hadamards on the first [k] lines, read where those lines are 0, sum the
    amplitudes over all values of those lines. *)
Lemma layer_sums (amp : amplitudes) (k : nat) (y : N) :
  (forall i, i < k -> bit y i = false) ->
  evolve (map HGate (seq 0 k)) amp y
  = sumZ (map (fun x' => amp (y + x')%N) (basis k)).
Proof.
  revert y. induction k as [|k IH]; intros y Hlow.
  - cbn. rewrite N.add_0_r. lia.
  - rewrite seq_S, map_app. cbn [Nat.add map]. rewrite evolve_snoc.
    cbn [apply]. rewrite (Hlow k) by lia.
    rewrite !IH.
    + rewrite basis_S, map_app, sumZ_app, map_map. f_equal.
      apply sumZ_map_ext. intros x' _. f_equal.
      rewrite flip_add by (apply Hlow; lia). lia.
    + intros i Hi. rewrite bit_flip, Hlow by lia.
      destruct (Nat.eqb_spec k i); [lia|reflexivity].
    + intros i Hi. apply Hlow. lia.
Qed.

Lemma sum_of_signs (b : bool) (tt : N -> bool) (l : list N) :
  sumZ (map (fun x' => sign (xorb b (tt x'))) l)
  = (sign b * (Z.of_nat (List.length l) - 2 * Z.of_nat (List.length (filter tt l))))%Z.
Proof.
  induction l as [|a l IH]; cbn [map sumZ fold_right filter List.length].
  - ring.
  - fold (sumZ (map (fun x' => sign (xorb b (tt x'))) l)). rewrite IH.
    destruct (tt a), b; cbn [xorb sign List.length]; lia.
Qed.

End Hadamard.

(** ** The compiled circuit *)

Section Compiled.

Variables (n : nat) (f : QuantumCircuit) (tt : N -> bool).
Hypothesis Himpl : implements n f tt.

Lemma compile_circuit_shape :
  num_qubits (DJ.compile_circuit f) = n + 1 /\
  num_clbits (DJ.compile_circuit f) = n /\
  data (DJ.compile_circuit f)
  = (((XGate n :: map HGate (seq 0 (n + 1))) ++ data f)
       ++ map HGate (seq 0 n)) ++ (readout_plan n).
Proof.
  destruct Himpl as [Hl _ _ _]. unfold DJ.compile_circuit.
  rewrite Hl, Nat.add_sub. repeat split.
Qed.

Lemma compile_circuit_wf :
  Forall (wf (n + 1)) (data (DJ.compile_circuit f)).
Proof.
  destruct compile_circuit_shape as (_ & _ & ->).
  destruct Himpl as [_ Hwf _ _].
  assert (Hh : forall k, k <= n + 1 -> Forall (wf (n + 1)) (map HGate (seq 0 k))).
  { intros k Hk. apply Forall_forall. intros g Hg.
    apply in_map_iff in Hg as (i & <- & Hi). apply in_seq in Hi. simpl. lia. }
  repeat (apply Forall_app; split); try assumption.
  - constructor; [simpl; lia|]. apply Hh. lia.
  - apply Hh. lia.
  - apply Forall_forall. intros g Hg.
    apply in_map_iff in Hg as (i & <- & Hi). apply in_seq in Hi. simpl. lia.
Qed.

Lemma hadamards_layer (k : nat) : hadamards (map HGate (seq 0 k)) = k.
Proof.
  unfold hadamards.
  assert (H : forall l, List.length (filter is_h (map HGate l)) = List.length l).
  { induction l as [|a l IH]; simpl; [reflexivity|]. now rewrite IH. }
  now rewrite H, length_seq.
Qed.

Lemma compile_circuit_hadamards :
  hadamards (data (DJ.compile_circuit f)) = 2 * n + 1.
Proof.
  destruct compile_circuit_shape as (_ & _ & ->).
  destruct Himpl as [_ _ Hcl _].
  rewrite !hadamards_app.
  change (hadamards (XGate n :: ?gs)) with (hadamards gs).
  rewrite !hadamards_layer, (hadamards_no_h (data f)) by now apply classical_no_h.
  rewrite (hadamards_no_h (readout_plan n)); [lia|].
  apply Forall_forall. intros g Hg. apply in_map_iff in Hg as (i & <- & _).
  reflexivity.
Qed.

Lemma compile_circuit_norm :
  norm2 (n + 1) (evolve (data (DJ.compile_circuit f)) ket0)
  = (2 ^ Z.of_nat (2 * n + 1))%Z.
Proof.
  rewrite (norm2_evolve _ _ _ compile_circuit_wf), compile_circuit_hadamards.
  rewrite norm2_ket0. ring.
Qed.

(** The amplitude of the two basis states whose input lines are all 0. *)
Lemma zero_readout_amplitude (y : N) :
  (y < 2 ^ N.of_nat (n + 1))%N -> (forall i, i < n -> bit y i = false) ->
  evolve (data (DJ.compile_circuit f)) ket0 y
  = (sign (bit y n) * (2 ^ Z.of_nat n - 2 * Z.of_nat (count_on n tt)))%Z.
Proof.
  intros Hy Hlow.
  destruct compile_circuit_shape as (_ & _ & ->).
  destruct Himpl as [_ Hwf Hcl Hfw].
  rewrite (evolve_app _ (readout_plan n)).
  rewrite (evolve_backward (readout_plan n)).
  2:{ apply Forall_forall. intros g Hg. apply in_map_iff in Hg as (i & <- & _).
      reflexivity. }
  replace (backward (readout_plan n) y) with y.
  2:{ unfold readout_plan. induction (seq 0 n) as [|a l IH]; simpl; auto. }
  rewrite (evolve_app _ (map HGate (seq 0 n))), layer_sums by assumption.
  rewrite (sumZ_map_ext _ (fun x' => sign (xorb (bit y n) (tt x')))).
  - rewrite sum_of_signs, basis_length. unfold count_on.
    rewrite Nat2Z.inj_pow. reflexivity.
  - intros x' Hx. apply in_basis in Hx.
    rewrite evolve_app, (evolve_backward (data f)) by now apply classical_no_h.
    rewrite (backward_of_involution (n + 1) (data f) (oracle_map n tt))
      by (auto using oracle_map_involutive).
    assert (Hbits : forall i, bit (y + x') i = if Nat.ltb i n then bit x' i else bit y i).
    { now apply bit_add_pow2_high. }
    assert (Hin : inputs n (y + x') = x').
    { apply bits_eq. intros i. rewrite bit_inputs, Hbits.
      destruct (Nat.ltb_spec i n); [apply andb_true_r|].
      rewrite andb_false_r. symmetry. now apply (lt_pow2_bits x' n). }
    assert (Hlt : (y + x' < 2 ^ N.of_nat (n + 1))%N).
    { apply lt_pow2_bits. intros i Hi. rewrite Hbits.
      destruct (Nat.ltb_spec i n); [lia|]. now apply (lt_pow2_bits y (n + 1)). }
    rewrite prepared_state.
    + f_equal. unfold oracle_map. rewrite Hin.
      destruct (tt x').
      * rewrite bit_flip, Hbits, Nat.ltb_irrefl, Nat.eqb_refl.
        now rewrite xorb_true_r.
      * rewrite Hbits, Nat.ltb_irrefl. now rewrite xorb_false_r.
    + unfold oracle_map. destruct (tt (inputs n (y + x'))); [|assumption].
      apply flip_lt; [lia|assumption].
Qed.

End Compiled.

(** ** From the sampled state to the verdict *)

Section Verdict.

Variables (n : nat) (f : QuantumCircuit) (tt : N -> bool).
Hypothesis Himpl : implements n f tt.

Lemma bit_set_bit (c : nat) (b : bool) (creg : N) (i : nat) :
  bit (set_bit c b creg) i = if Nat.eqb c i then b else bit creg i.
Proof.
  unfold bit, set_bit. destruct b.
  - rewrite N.setbit_eqb. destruct (Nat.eqb_spec c i) as [->|Hne].
    + now rewrite N.eqb_refl.
    + replace (N.of_nat c =? N.of_nat i)%N with false; [reflexivity|].
      symmetry. apply N.eqb_neq. lia.
  - rewrite N.clearbit_eqb. destruct (Nat.eqb_spec c i) as [->|Hne].
    + now rewrite N.eqb_refl, andb_false_r.
    + replace (N.of_nat c =? N.of_nat i)%N with false; [apply andb_true_r|].
      symmetry. apply N.eqb_neq. lia.
Qed.

Lemma bit_readout_plan (k : nat) (y creg : N) (i : nat) :
  bit (readout (readout_plan k) y creg) i
  = if Nat.ltb i k then bit y i else bit creg i.
Proof.
  unfold readout_plan. induction k as [|k IH]; [reflexivity|].
  rewrite seq_S, map_app, readout_app. cbn [Nat.add map readout].
  rewrite bit_set_bit, IH, ltb_S.
  destruct (Nat.eqb_spec k i) as [->|Hne]; reflexivity.
Qed.

Lemma existsb_ext_in {A : Type} (p q : A -> bool) (l : list A) :
  (forall a, In a l -> p a = q a) -> existsb p l = existsb q l.
Proof.
  induction l as [|a l IH]; intros H; [reflexivity|].
  simpl. rewrite (H a), IH; auto using in_eq, in_cons.
Qed.

Lemma prefix_empty (s : string) : String.prefix "" s = true.
Proof. now destruct s. Qed.

Lemma str_in_memory (k : nat) (creg : N) :
  str_in "1" (memory k creg) = existsb (bit creg) (seq 0 k).
Proof.
  induction k as [|k IH]; [reflexivity|].
  rewrite seq_S, existsb_app. cbn [Nat.add existsb memory str_in].
  rewrite IH, orb_false_r, orb_comm. f_equal.
  destruct (bit creg k); cbn; [apply prefix_empty|reflexivity].
Qed.

Lemma all_zero_memory (k : nat) (creg : N) :
  all_zero (memory k creg) = negb (existsb (bit creg) (seq 0 k)).
Proof.
  unfold all_zero. induction k as [|k IH]; [reflexivity|].
  rewrite seq_S, existsb_app. cbn [Nat.add existsb memory list_ascii_of_string forallb].
  rewrite IH, orb_false_r, negb_orb, andb_comm. now destruct (bit creg k).
Qed.

(** One shot of the compiled circuit: some basis state of non-zero amplitude
    is drawn, and the verdict is whether one of its input lines reads 1. *)
Lemma compiled_shot (seed : N) :
  exists y m,
    (y < 2 ^ N.of_nat (n + 1))%N /\
    evolve (data (DJ.compile_circuit f)) ket0 y <> 0%Z /\
    Aer.run (DJ.compile_circuit f) seed = Ok m /\
    all_zero m = negb (existsb (bit y) (seq 0 n)) /\
    DJ.dj_algorithm f seed
    = Ok (if existsb (bit y) (seq 0 n) then "balanced" else "constant").
Proof.
  destruct (compile_circuit_shape n f tt Himpl) as (Hq & Hc & Hd).
  destruct (run_outcome (DJ.compile_circuit f) seed) as (y & Hy & Hamp & Hrun).
  { rewrite Hq. now apply (compile_circuit_wf n f tt). }
  rewrite Hq in Hy. rewrite Hc in Hrun.
  assert (Hex : existsb (bit (readout (data (DJ.compile_circuit f)) y 0)) (seq 0 n)
                = existsb (bit y) (seq 0 n)).
  { apply existsb_ext_in. intros i Hi. apply in_seq in Hi.
    rewrite Hd, !readout_app, bit_readout_plan.
    replace (Nat.ltb i n) with true by (symmetry; apply Nat.ltb_lt; lia).
    reflexivity. }
  exists y, (memory n (readout (data (DJ.compile_circuit f)) y 0)).
  repeat split; try assumption.
  - now rewrite all_zero_memory, Hex.
  - unfold DJ.dj_algorithm. rewrite Hrun. cbn [bind].
    rewrite str_in_memory, Hex. now destruct (existsb (bit y) (seq 0 n)).
Qed.

End Verdict.

(** ** The quantum decision on constant and on balanced tables *)

Section Decision.

Variables (n : nat) (f : QuantumCircuit) (tt : N -> bool).
Hypothesis Himpl : implements n f tt.

Lemma count_on_constant :
  constant_on n tt -> count_on n tt = if tt 0%N then 2 ^ n else 0.
Proof.
  intros Hc. unfold count_on.
  rewrite (filter_ext_in tt (fun _ => tt 0%N)).
  - destruct (tt 0%N).
    + rewrite <- (basis_length n).
      induction (basis n) as [|a l IH]; simpl; [reflexivity|]. now rewrite IH.
    + induction (basis n) as [|a l IH]; simpl; auto.
  - intros a Ha. apply Hc. now apply in_basis.
Qed.

Lemma pow2_lines_lt : (2 ^ N.of_nat n < 2 ^ N.of_nat (n + 1))%N.
Proof. apply N.pow_lt_mono_r; lia. Qed.

Lemma bit_pow2 (i : nat) : bit (2 ^ N.of_nat n) i = Nat.eqb n i.
Proof.
  unfold bit. rewrite N.pow2_bits_eqb.
  destruct (Nat.eqb_spec n i) as [->|Hne]; [apply N.eqb_refl|].
  apply N.eqb_neq. lia.
Qed.

Lemma amplitude_at_zero :
  evolve (data (DJ.compile_circuit f)) ket0 0%N
  = (2 ^ Z.of_nat n - 2 * Z.of_nat (count_on n tt))%Z.
Proof.
  rewrite (zero_readout_amplitude n f tt Himpl).
  - unfold bit. rewrite N.bits_0. cbn [sign]. ring.
  - apply N.neq_0_lt_0, N.pow_nonzero. lia.
  - intros i _. unfold bit. apply N.bits_0.
Qed.

Lemma amplitude_at_output :
  evolve (data (DJ.compile_circuit f)) ket0 (2 ^ N.of_nat n)%N
  = (- (2 ^ Z.of_nat n - 2 * Z.of_nat (count_on n tt)))%Z.
Proof.
  rewrite (zero_readout_amplitude n f tt Himpl).
  - rewrite bit_pow2, Nat.eqb_refl. cbn [sign]. ring.
  - apply pow2_lines_lt.
  - intros i Hi. rewrite bit_pow2. apply Nat.eqb_neq. lia.
Qed.

(** On a constant table all the weight sits on the two states whose input
    lines read 0. *)
Lemma constant_support (y : N) :
  constant_on n tt -> (y < 2 ^ N.of_nat (n + 1))%N ->
  evolve (data (DJ.compile_circuit f)) ket0 y <> 0%Z ->
  existsb (bit y) (seq 0 n) = false.
Proof.
  intros Hc Hy Hamp. apply not_true_is_false. intros Hex.
  apply existsb_exists in Hex as (i & Hi & Hb). apply in_seq in Hi.
  assert (Hy0 : y <> 0%N).
  { intros ->. unfold bit in Hb. now rewrite N.bits_0 in Hb. }
  assert (Hyn : y <> (2 ^ N.of_nat n)%N).
  { intros ->. rewrite bit_pow2 in Hb. apply Nat.eqb_eq in Hb. lia. }
  assert (Hpn : (2 ^ N.of_nat n)%N <> 0%N) by (apply N.pow_nonzero; lia).
  assert (Hnd : NoDup [0%N; (2 ^ N.of_nat n)%N; y]).
  { repeat constructor; simpl; intuition congruence. }
  assert (Hin : incl [0%N; (2 ^ N.of_nat n)%N; y] (basis (n + 1))).
  { intros z [<-|[<-|[<-|[]]]]; apply in_basis; auto using pow2_lines_lt.
    apply N.neq_0_lt_0, N.pow_nonzero. lia. }
  pose proof (compile_circuit_norm n f tt Himpl) as Hnorm. unfold norm2 in Hnorm.
  pose proof (sumZ_incl
    (fun z => (evolve (data (DJ.compile_circuit f)) ket0 z
               * evolve (data (DJ.compile_circuit f)) ket0 z)%Z)
    _ _ ltac:(intros z; nia) Hnd Hin) as Hle.
  rewrite Hnorm in Hle. cbn [map sumZ fold_right] in Hle.
  rewrite amplitude_at_zero, amplitude_at_output in Hle.
  rewrite count_on_constant in Hle by assumption.
  assert (Hpow : (2 ^ Z.of_nat (2 * n + 1) = 2 * (2 ^ Z.of_nat n * 2 ^ Z.of_nat n))%Z).
  { replace (Z.of_nat (2 * n + 1)) with (1 + (Z.of_nat n + Z.of_nat n))%Z by lia.
    rewrite !Z.pow_add_r by lia. reflexivity. }
  rewrite Hpow in Hle. apply Hamp.
  assert (Hz : Z.of_nat (2 ^ n) = (2 ^ Z.of_nat n)%Z) by now rewrite Nat2Z.inj_pow.
  revert Hle. generalize (evolve (data (DJ.compile_circuit f)) ket0 y) as a.
  destruct (tt 0%N); rewrite ?Hz; generalize (2 ^ Z.of_nat n)%Z as P;
    intros P a Hle; cbn [Z.of_nat] in Hle; nia.
Qed.

(** On a balanced table those two states have no weight. *)
Lemma balanced_support (y : N) :
  1 <= n -> balanced_on n tt -> (y < 2 ^ N.of_nat (n + 1))%N ->
  evolve (data (DJ.compile_circuit f)) ket0 y <> 0%Z ->
  existsb (bit y) (seq 0 n) = true.
Proof.
  intros Hn Hb Hy Hamp. apply not_false_is_true. intros Hex.
  assert (Hlow : forall i, i < n -> bit y i = false).
  { intros i Hi. destruct (bit y i) eqn:Hbi; [|reflexivity].
    assert (Ht : existsb (bit y) (seq 0 n) = true).
    { apply existsb_exists. exists i. split; [apply in_seq; lia|assumption]. }
    congruence. }
  apply Hamp. rewrite (zero_readout_amplitude n f tt Himpl) by assumption.
  rewrite Hb. pose proof (pow2_half n Hn) as Hh.
  assert (Hz : Z.of_nat (2 ^ n) = (2 ^ Z.of_nat n)%Z) by now rewrite Nat2Z.inj_pow.
  lia.
Qed.

Lemma dj_algorithm_constant (seed : N) :
  constant_on n tt ->
  DJ.dj_algorithm f seed = Ok "constant" /\
  exists m, Aer.run (DJ.compile_circuit f) seed = Ok m /\ all_zero m = true.
Proof.
  intros Hc.
  destruct (compiled_shot n f tt Himpl seed) as (y & m & Hy & Hamp & Hrun & Hz & Hv).
  rewrite (constant_support y Hc Hy Hamp) in Hz, Hv. split; [assumption|].
  now exists m.
Qed.

Lemma dj_algorithm_balanced (seed : N) :
  1 <= n -> balanced_on n tt ->
  DJ.dj_algorithm f seed = Ok "balanced" /\
  exists m, Aer.run (DJ.compile_circuit f) seed = Ok m /\ all_zero m = false.
Proof.
  intros Hn Hb.
  destruct (compiled_shot n f tt Himpl seed) as (y & m & Hy & Hamp & Hrun & Hz & Hv).
  rewrite (balanced_support y Hn Hb Hy Hamp) in Hz, Hv. split; [assumption|].
  now exists m.
Qed.

End Decision.

(** ** The classical decision on constant and on balanced tables *)

Lemma of_nat_lt_pow2 (i k : nat) : i < 2 ^ k -> (N.of_nat i < 2 ^ N.of_nat k)%N.
Proof. intros H. rewrite <- pow2_of_nat. lia. Qed.

Lemma try_states_eq (n : nat) :
  1 <= n ->
  DJ.try_states n = Ok (map N.of_nat (seq 0 (2 ^ (n - 1) + 1))).
Proof. intros Hn. destruct n as [|k]; [lia|]. simpl. now rewrite Nat.sub_0_r. Qed.

Lemma try_states_lt (n : nat) :
  1 <= n ->
  Forall (fun s => (s < 2 ^ N.of_nat n)%N) (map N.of_nat (seq 0 (2 ^ (n - 1) + 1))).
Proof.
  intros Hn.
  apply Forall_forall. intros s Hs. apply in_map_iff in Hs as (i & <- & Hi).
  apply in_seq in Hi. apply of_nat_lt_pow2.
  destruct n as [|k]; [lia|]. simpl in *. rewrite Nat.sub_0_r in Hi.
  assert (0 < 2 ^ k) by (apply Nat.neq_0_lt_0, Nat.pow_nonzero; lia). lia.
Qed.


Section ClassicalDecision.

Variables (n : nat) (f : QuantumCircuit) (tt : N -> bool) (rng : nat -> N).
Hypothesis Himpl : implements n f tt.
Hypothesis Hn : 1 <= n.

(** On a constant table every input of the try list is queried, in order,
    before the loop falls through. *)
Lemma classical_on_constant_queries :
  constant_on n tt ->
  DJ.dj_classical_algorithm_queries f rng
  = (Ok ("constant", 2 ^ (n - 1) + 1),
     map (DJ.query_circuit f) (map N.of_nat (seq 0 (2 ^ (n - 1) + 1)))).
Proof.
  intros Hc. unfold DJ.dj_classical_algorithm_queries.
  rewrite (impl_lines n f tt Himpl), Nat.add_sub, try_states_eq by assumption.
  rewrite (classical_loop_same n f tt rng Himpl _ 0 [] (tt 0%N)).
  - now rewrite length_map, length_seq.
  - now apply try_states_lt.
  - intros o [].
  - intros s Hs. apply Hc.
    pose proof (try_states_lt n Hn) as Hlt. rewrite Forall_forall in Hlt. auto.
Qed.

Lemma classical_on_constant :
  constant_on n tt ->
  DJ.dj_classical_algorithm f rng = Ok ("constant", 2 ^ (n - 1) + 1).
Proof.
  intros Hc. unfold DJ.dj_classical_algorithm.
  now rewrite classical_on_constant_queries.
Qed.

(** Under a balanced table no value is taken more than [2^n / 2] times. *)
Lemma balanced_pigeonhole (l : list N) (v : bool) :
  balanced_on n tt -> NoDup l ->
  (forall s, In s l -> (s < 2 ^ N.of_nat n)%N) ->
  (forall s, In s l -> tt s = v) ->
  List.length l <= 2 ^ n / 2.
Proof.
  intros Hb Hnd Hlt Hv.
  assert (Hcount : List.length (filter (fun s => Bool.eqb (tt s) v) (basis n)) = 2 ^ n / 2).
  { unfold balanced_on, count_on in Hb. destruct v.
    - rewrite (filter_ext _ tt); [assumption|]. intros a. now destruct (tt a).
    - rewrite (filter_ext _ (fun a => negb (tt a))) by (intros a; now destruct (tt a)).
      pose proof (filter_length tt (basis n)) as Hfl.
      rewrite basis_length, Hb in Hfl. pose proof (pow2_half n Hn). lia. }
  rewrite <- Hcount. apply NoDup_incl_length; [assumption|].
  intros s Hs. apply filter_In. split.
  - apply in_basis. auto.
  - rewrite (Hv s Hs). now destruct v.
Qed.

Lemma classical_on_balanced :
  balanced_on n tt ->
  exists k,
    DJ.dj_classical_algorithm f rng = Ok ("balanced", k) /\
    2 <= k <= 2 ^ (n - 1) + 1 /\
    (forall j, j < k - 1 -> tt (N.of_nat j) = tt 0%N) /\
    tt (N.of_nat (k - 1)) = negb (tt 0%N).
Proof.
  intros Hb. unfold DJ.dj_classical_algorithm, DJ.dj_classical_algorithm_queries.
  rewrite (impl_lines n f tt Himpl), Nat.add_sub, try_states_eq by assumption.
  pose proof (try_states_lt n Hn) as Hlt.
  set (m := 2 ^ (n - 1)) in *.
  assert (Hm : 2 ^ n / 2 = m).
  { unfold m. destruct n as [|k]; [lia|]. simpl Nat.sub. rewrite Nat.sub_0_r.
    rewrite Nat.pow_succ_r', Nat.mul_comm, Nat.div_mul; lia. }
  replace (m + 1) with (S m) in * by lia. cbn [seq map] in *.
  inversion Hlt as [|? ? H0 Hrest]; subst.
  cbn [DJ.classical_loop]. rewrite (query_result n f tt) by assumption.
  cbn [DJ.nonempty andb app].
  set (rest := map N.of_nat (seq 1 m)) in *.
  destruct (forallb (fun s => Bool.eqb (tt s) (tt 0%N)) rest) eqn:Hall.
  - exfalso.
    assert (Hlen : List.length (0%N :: rest) <= 2 ^ n / 2).
    { apply (balanced_pigeonhole _ (tt 0%N)); try assumption.
      - change (0%N :: rest) with (map N.of_nat (seq 0 (S m))).
        apply Finite.Injective_map_NoDup; [|apply seq_NoDup].
        intros a b. apply Nat2N.inj.
      - intros s [<-|Hs]; [assumption|]. rewrite Forall_forall in Hrest. auto.
      - intros s [<-|Hs]; [reflexivity|].
        rewrite forallb_forall in Hall. specialize (Hall s Hs).
        now apply Bool.eqb_prop in Hall. }
    cbn [List.length] in Hlen. unfold rest in Hlen.
    rewrite length_map, length_seq in Hlen. lia.
  - destruct (first_differ _ _ Hall) as (pre & s & post & Hsplit & Hpre & Hs).
    assert (Hnth : forall i, i < m -> nth i rest 0%N = N.of_nat (S i)).
    { intros i Hi. unfold rest.
      change 0%N with (N.of_nat 0). rewrite map_nth, seq_nth by assumption.
      reflexivity. }
    assert (Hlenrest : List.length rest = m)
      by (unfold rest; now rewrite length_map, length_seq).
    assert (Hlenpre : List.length pre < m).
    { rewrite <- Hlenrest, Hsplit, length_app. simpl. lia. }
    assert (Hsval : s = N.of_nat (S (List.length pre))).
    { rewrite <- Hnth by assumption. rewrite Hsplit. now rewrite nth_middle. }
    exists (1 + List.length pre + 1). repeat split.
    + rewrite Hsplit. rewrite Hsplit in Hrest.
      rewrite (classical_loop_differs n f tt rng Himpl pre s post 1 _ (tt 0%N)).
      * reflexivity.
      * assumption.
      * discriminate.
      * intros o [<-|[]]. reflexivity.
      * intros s' Hs'. apply Bool.eqb_prop. auto.
      * intros Heq. rewrite Heq, Bool.eqb_reflx in Hs. discriminate.
    + lia.
    + lia.
    + intros j Hj. destruct j as [|j]; [reflexivity|].
      assert (Hjl : j < List.length pre) by lia.
      apply Bool.eqb_prop, Hpre.
      rewrite <- Hnth by lia. rewrite Hsplit, app_nth1 by assumption.
      now apply nth_In.
    + replace (1 + List.length pre + 1 - 1) with (S (List.length pre)) by lia.
      rewrite <- Hsval. destruct (tt s), (tt 0%N); simpl in *; congruence.
Qed.

End ClassicalDecision.

(** ** The quantum decision procedure on generated oracles *)

Lemma choice_example : DJ.choice_without_replacement 2 [1; 2]%N.
Proof.
  repeat split.
  - repeat constructor; simpl; intuition discriminate.
  - repeat constructor.
Qed.

(** C1. For every [n >= 1] and every oracle [dj_function] can produce,
    [dj_algorithm] returns the verdict of the oracle's class for every draw of
    the single shot, that is with probability 1: "constant" on the constant
    branch, "balanced" on the balanced branch; the sampled memory string is
    all zeros exactly on the constant branch. *)
Theorem dj_algorithm_decides (n : nat) (flip_output constant : bool)
    (on_states : list N) (f : QuantumCircuit) (seed : N) :
  1 <= n ->
  (constant = false -> DJ.choice_without_replacement n on_states) ->
  DJ.dj_function n flip_output constant on_states = Ok f ->
  DJ.dj_algorithm f seed = Ok (if constant then "constant" else "balanced") /\
  exists m, Aer.run (DJ.compile_circuit f) seed = Ok m /\ all_zero m = constant.
Proof.
  intros Hn Hchoice Hf. destruct constant.
  - change (DJ.dj_function n flip_output true on_states)
      with (DJ.dj_function n flip_output true []) in Hf.
    apply dj_function_implements in Hf; [|constructor].
    apply (dj_algorithm_constant n f _ Hf seed), dj_table_nil.
  - destruct (Hchoice eq_refl) as (Hnd & Hlt & Hlen).
    apply dj_function_implements in Hf; [|assumption].
    apply (dj_algorithm_balanced n f _ Hf seed Hn).
    apply dj_table_balanced; [assumption|]. now repeat split.
Qed.

Lemma dj_algorithm_decides_witness :
  DJ.dj_function 2 false false [1; 2]%N = Ok example_balanced /\
  DJ.dj_algorithm example_balanced 5 = Ok "balanced" /\
  exists m, Aer.run (DJ.compile_circuit example_balanced) 5 = Ok m /\ all_zero m = false.
Proof.
  split; [reflexivity|].
  apply (dj_algorithm_decides 2 false false [1; 2]%N example_balanced 5%N).
  - lia.
  - intros _. exact choice_example.
  - reflexivity.
Defined.

(** C9. [dj_algorithm] is deterministic per oracle: on one fixed generated
    oracle, two invocations return the same verdict whatever their two fresh
    single-shot draws are. *)
Theorem dj_algorithm_same_verdict (n : nat) (flip_output constant : bool)
    (on_states : list N) (f : QuantumCircuit) (seed1 seed2 : N) :
  1 <= n ->
  (constant = false -> DJ.choice_without_replacement n on_states) ->
  DJ.dj_function n flip_output constant on_states = Ok f ->
  DJ.dj_algorithm f seed1 = DJ.dj_algorithm f seed2 /\
  exists verdict, DJ.dj_algorithm f seed1 = Ok verdict.
Proof.
  intros Hn Hchoice Hf. destruct constant.
  - change (DJ.dj_function n flip_output true on_states)
      with (DJ.dj_function n flip_output true []) in Hf.
    apply dj_function_implements in Hf; [|constructor].
    destruct (dj_algorithm_constant n f _ Hf seed1 (dj_table_nil n flip_output)) as [H1 _].
    destruct (dj_algorithm_constant n f _ Hf seed2 (dj_table_nil n flip_output)) as [H2 _].
    rewrite H1, H2. split; [reflexivity|now exists "constant"].
  - destruct (Hchoice eq_refl) as (Hnd & Hlt & Hlen).
    apply dj_function_implements in Hf; [|assumption].
    assert (Hb : balanced_on n (dj_table n flip_output on_states))
      by (apply dj_table_balanced; [assumption|now repeat split]).
    destruct (dj_algorithm_balanced n f _ Hf seed1 Hn Hb) as [H1 _].
    destruct (dj_algorithm_balanced n f _ Hf seed2 Hn Hb) as [H2 _].
    rewrite H1, H2. split; [reflexivity|now exists "balanced"].
Qed.

Lemma dj_algorithm_same_verdict_witness :
  DJ.dj_function 2 true true [] = Ok example_constant /\
  DJ.dj_algorithm example_constant 3 = DJ.dj_algorithm example_constant 30 /\
  exists verdict, DJ.dj_algorithm example_constant 3 = Ok verdict.
Proof.
  split; [reflexivity|].
  apply (dj_algorithm_same_verdict 2 true true [] example_constant 3%N 30%N).
  - lia.
  - intros H. discriminate H.
  - reflexivity.
Defined.

(** The promise matters: a circuit that flips the output on one input of four
    is neither constant nor balanced, [dj_function] never builds it, and two
    shots on it can disagree. *)
Remark unpromised_oracle_two_verdicts :
  DJ.dj_algorithm (mkCircuit 3 0 [MCXGate [0; 1] 2]) 0 = Ok "constant" /\
  DJ.dj_algorithm (mkCircuit 3 0 [MCXGate [0; 1] 2]) 31 = Ok "balanced".
Proof. split; vm_compute; reflexivity. Qed.

(** ** Classical queries on generated oracles *)

(** C2. For every [n >= 1] and every oracle built on the balanced branch,
    with or without the output flip, querying the oracle on each of the [2^n]
    basis inputs and reading the output line gives "1" for exactly [2^n / 2]
    inputs and "0" for the other [2^n / 2]. *)
Theorem balanced_branch_is_balanced (n : nat) (flip_output : bool)
    (on_states : list N) (f : QuantumCircuit) (rng : N -> N) :
  1 <= n ->
  DJ.choice_without_replacement n on_states ->
  DJ.dj_function n flip_output false on_states = Ok f ->
  List.length (filter (fun x' => returns (Aer.run (DJ.query_circuit f x') (rng x')) "1")
                      (basis n)) = 2 ^ n / 2 /\
  List.length (filter (fun x' => returns (Aer.run (DJ.query_circuit f x') (rng x')) "0")
                      (basis n)) = 2 ^ n / 2.
Proof.
  intros Hn Hchoice Hf.
  pose proof (dj_table_balanced n flip_output on_states Hn Hchoice) as Hb.
  destruct Hchoice as (Hnd & Hlt & Hlen).
  apply dj_function_implements in Hf; [|assumption].
  set (tt := dj_table n flip_output on_states) in *.
  unfold balanced_on, count_on in Hb.
  pose proof (filter_length tt (basis n)) as Hfl.
  rewrite basis_length, Hb in Hfl. pose proof (pow2_half n Hn) as Hh.
  split.
  - rewrite (filter_ext_in _ tt); [assumption|].
    intros a Ha. apply in_basis in Ha.
    rewrite (query_result n f tt) by assumption. now destruct (tt a).
  - rewrite (filter_ext_in _ (fun a => negb (tt a))); [lia|].
    intros a Ha. apply in_basis in Ha.
    rewrite (query_result n f tt) by assumption. now destruct (tt a).
Qed.

Lemma balanced_branch_is_balanced_witness :
  DJ.dj_function 2 false false [1; 2]%N = Ok example_balanced /\
  List.length (filter (fun x' => returns (Aer.run (DJ.query_circuit example_balanced x') x') "1")
                      (basis 2)) = 2 ^ 2 / 2 /\
  List.length (filter (fun x' => returns (Aer.run (DJ.query_circuit example_balanced x') x') "0")
                      (basis 2)) = 2 ^ 2 / 2.
Proof.
  split; [reflexivity|].
  apply (balanced_branch_is_balanced 2 false [1; 2]%N example_balanced (fun x' => x')).
  - lia.
  - exact choice_example.
  - reflexivity.
Defined.



(** C5. For every [n >= 1] and every oracle built on the balanced branch,
    [dj_classical_algorithm] returns [("balanced", k)] with
    [k <= 2^(n-1) + 1], and [k] is the first query whose output differs from
    the recorded ones: the outputs of queries [1 .. k-1] all agree, the
    output of query [k] does not, and the count returned is the count so
    far. *)
Theorem classical_balanced_stops_early (n : nat) (flip_output : bool)
    (on_states : list N) (f : QuantumCircuit) (rng : nat -> N) :
  1 <= n ->
  DJ.choice_without_replacement n on_states ->
  DJ.dj_function n flip_output false on_states = Ok f ->
  exists k,
    DJ.dj_classical_algorithm f rng = Ok ("balanced", k) /\
    2 <= k <= 2 ^ (n - 1) + 1 /\
    (forall j, j < k - 1 ->
       Aer.run (DJ.query_circuit f (N.of_nat j)) (rng j)
       = Aer.run (DJ.query_circuit f 0) (rng 0)) /\
    Aer.run (DJ.query_circuit f (N.of_nat (k - 1))) (rng (k - 1))
    <> Aer.run (DJ.query_circuit f 0) (rng 0).
Proof.
  intros Hn Hchoice Hf.
  pose proof (dj_table_balanced n flip_output on_states Hn Hchoice) as Hb.
  destruct Hchoice as (Hnd & Hlt & Hlen).
  apply dj_function_implements in Hf; [|assumption].
  set (tt := dj_table n flip_output on_states) in *.
  destruct (classical_on_balanced n f tt rng Hf Hn Hb) as (k & Hres & Hk & Hsame & Hdiff).
  exists k. split; [assumption|]. split; [assumption|].
  pose proof (try_states_lt n Hn) as Hstates. rewrite Forall_forall in Hstates.
  assert (Hin : forall j, j < k -> (N.of_nat j < 2 ^ N.of_nat n)%N).
  { intros j Hj. apply Hstates. apply in_map, in_seq. lia. }
  assert (H0 : (0 < 2 ^ N.of_nat n)%N) by (apply (Hin 0); lia).
  split.
  - intros j Hj. rewrite !(query_result n f tt) by (auto; apply Hin; lia).
    now rewrite Hsame.
  - rewrite !(query_result n f tt) by (auto; apply Hin; lia).
    rewrite Hdiff. now destruct (tt 0%N).
Qed.

Lemma classical_balanced_stops_early_witness :
  DJ.dj_function 2 false false [1; 2]%N = Ok example_balanced /\
  exists k,
    DJ.dj_classical_algorithm example_balanced (fun j => N.of_nat j) = Ok ("balanced", k) /\
    2 <= k <= 2 ^ (2 - 1) + 1 /\
    (forall j, j < k - 1 ->
       Aer.run (DJ.query_circuit example_balanced (N.of_nat j)) (N.of_nat j)
       = Aer.run (DJ.query_circuit example_balanced 0) (N.of_nat 0)) /\
    Aer.run (DJ.query_circuit example_balanced (N.of_nat (k - 1))) (N.of_nat (k - 1))
    <> Aer.run (DJ.query_circuit example_balanced 0) (N.of_nat 0).
Proof.
  split; [reflexivity|].
  apply (classical_balanced_stops_early 2 false [1; 2]%N example_balanced
           (fun j => N.of_nat j)).
  - lia.
  - exact choice_example.
  - reflexivity.
Defined.

(** The scenario of the two sources' comments: on [example_balanced] the
    second query already differs. *)
Example classical_example_balanced :
  DJ.dj_classical_algorithm example_balanced (fun _ => 0%N) = Ok ("balanced", 2).
Proof. vm_compute. reflexivity. Qed.

(** ** The block appended for one element of [on_states] *)

(** C3, on the code: for the pattern [0] on one input line the block holds no
    [x] gate, so the controlled flip fires on input [1], the complement of the
    pattern, and not on the pattern; likewise for the pattern [01] on two
    lines the output is flipped on input [10] and left alone on [01].  The
    input lines are restored in every case. *)
Theorem on_state_block_fires_on_complement :
  DJ.dj_function 1 false false [0%N]
    = Ok (mkCircuit 2 0 [Barrier; MCXGate [0] 1; Barrier]) /\
  Aer.run (DJ.query_circuit (mkCircuit 2 0 [Barrier; MCXGate [0] 1; Barrier]) 0) 0
    = Ok "0" /\
  Aer.run (DJ.query_circuit (mkCircuit 2 0 [Barrier; MCXGate [0] 1; Barrier]) 1) 0
    = Ok "1" /\
  data (DJ.on_state_block 2 (new 3 0) 1)
    = [Barrier; XGate 0; MCXGate [0; 1] 2; XGate 0] /\
  forward (data (DJ.on_state_block 2 (new 3 0) 1)) 1 = 1%N /\
  forward (data (DJ.on_state_block 2 (new 3 0) 1)) 2 = 6%N.
Proof. repeat split; vm_compute; reflexivity. Qed.

(** What the block does in general: the output line is flipped if and only if
    the input lines hold the bitwise complement of the chosen pattern, and the
    input lines come back unchanged. *)
Lemma on_state_block_effect (n : nat) (state y : N) :
  (state < 2 ^ N.of_nat n)%N ->
  forward (data (DJ.on_state_block n (new (n + 1) 0) state)) y
  = (if (inputs n y =? N.lnot state (N.of_nat n))%N then flip n y else y) /\
  inputs n (forward (data (DJ.on_state_block n (new (n + 1) 0) state)) y) = inputs n y.
Proof.
  intros Hs. rewrite on_state_block_data. cbn [data new app].
  rewrite forward_block by assumption. split; [reflexivity|].
  destruct (inputs n y =? N.lnot state (N.of_nat n))%N; [apply inputs_flip|reflexivity].
Qed.

(** ** Parameter checks *)

(** C7, as the code has it: the only parameter check is the one of
    [deutsch_function], which raises [ValueError] before any circuit is built
    exactly when the selector is outside [{1, 2, 3, 4}]; [dj_function] has no
    such check, and a request with [n = 0] that takes the constant branch is
    answered with an oracle of one line. *)
Theorem invalid_parameter_is_the_selector_check :
  (forall case : Z,
     existsb (Z.eqb case) [1; 2; 3; 4]%Z = false ->
     D.deutsch_function case = Raise (ValueError "`case` must be 1, 2, 3, or 4.")) /\
  (forall case : Z,
     existsb (Z.eqb case) [1; 2; 3; 4]%Z = true ->
     exists f, D.deutsch_function case = Ok f /\ num_qubits f = 2) /\
  (forall (flip_output : bool) (on_states : list N),
     DJ.dj_function 0 flip_output true on_states
     = Ok (mkCircuit 1 0 (if flip_output then [XGate 0] else []))).
Proof.
  split; [|split].
  - intros case Hc. unfold D.deutsch_function. now rewrite Hc.
  - intros case Hc. unfold D.deutsch_function. rewrite Hc. cbn [negb].
    eexists. split; [reflexivity|].
    destruct (case =? 2)%Z, (case =? 3)%Z, (case =? 4)%Z; reflexivity.
  - intros flip_output on_states. now destruct flip_output.
Qed.

(** C7, as stated, fails: an oracle requested with [n = 0 < 1] is built and
    returned; no error is raised. *)
Lemma dj_function_accepts_zero_lines :
  0 < 1 /\ DJ.dj_function 0 false true [] = Ok (mkCircuit 1 0 []).
Proof. split; [lia|reflexivity]. Qed.

(** ** The two compilers *)

Section Barriers.

Lemma strip_barriers_app (gs1 gs2 : list Instruction) :
  strip_barriers (gs1 ++ gs2) = strip_barriers gs1 ++ strip_barriers gs2.
Proof. apply filter_app. Qed.

Lemma evolve_strip_barriers (gs : list Instruction) (amp : amplitudes) :
  evolve (strip_barriers gs) amp = evolve gs amp.
Proof.
  revert amp. induction gs as [|g gs IH]; intros amp; [reflexivity|].
  destruct g; cbn [strip_barriers filter]; try apply (IH (apply _ amp)).
  change (evolve (Barrier :: gs) amp) with (evolve gs amp). apply IH.
Qed.

Lemma hadamards_strip_barriers (gs : list Instruction) :
  hadamards (strip_barriers gs) = hadamards gs.
Proof.
  unfold hadamards. induction gs as [|g gs IH]; [reflexivity|].
  destruct g; cbn [strip_barriers filter is_h List.length]; auto.
Qed.

Lemma readout_strip_barriers (gs : list Instruction) (y creg : N) :
  readout (strip_barriers gs) y creg = readout gs y creg.
Proof.
  revert creg. induction gs as [|g gs IH]; intros creg; [reflexivity|].
  destruct g; cbn [strip_barriers filter readout]; auto.
Qed.

(** Barriers change nothing the simulator computes. *)
Lemma run_strip_barriers (qc : QuantumCircuit) (seed : N) :
  Aer.run (mkCircuit (num_qubits qc) (num_clbits qc) (strip_barriers (data qc))) seed
  = Aer.run qc seed.
Proof.
  unfold Aer.run. cbn [data num_qubits num_clbits].
  rewrite evolve_strip_barriers, hadamards_strip_barriers.
  destruct (Aer.sample_from _ _ _); [|reflexivity].
  now rewrite readout_strip_barriers.
Qed.

End Barriers.

(** C8. The compilation protocol of the two sources is the same: for every
    oracle, [deutschsAlgorithm.compile_circuit] and
    [deutschJozsaAlgorithm.compile_circuit] give circuits on the same lines
    and readout slots whose instruction lists agree once barriers are
    dropped: [x] on the output line, a Hadamard on each of the [n + 1] lines,
    the oracle, a Hadamard on each of the first [n] lines, the measurement of
    the first [n] lines.  Every shot of one is a shot of the other. *)
Theorem compile_circuit_same_protocol (function : QuantumCircuit) :
  num_qubits (D.compile_circuit function) = num_qubits (DJ.compile_circuit function) /\
  num_clbits (D.compile_circuit function) = num_clbits (DJ.compile_circuit function) /\
  strip_barriers (data (D.compile_circuit function))
    = strip_barriers (data (DJ.compile_circuit function)) /\
  strip_barriers (data (DJ.compile_circuit function))
    = [XGate (num_qubits function - 1)]
        ++ map HGate (seq 0 (num_qubits function - 1 + 1))
        ++ strip_barriers (data function)
        ++ map HGate (seq 0 (num_qubits function - 1))
        ++ readout_plan (num_qubits function - 1) /\
  (forall seed, Aer.run (D.compile_circuit function) seed
                = Aer.run (DJ.compile_circuit function) seed).
Proof.
  set (n := num_qubits function - 1).
  assert (Hh : forall k, strip_barriers (map HGate (seq 0 k)) = map HGate (seq 0 k)).
  { intros k. unfold strip_barriers. induction (seq 0 k) as [|a l IH]; simpl;
      [reflexivity|now rewrite IH]. }
  assert (Hm : strip_barriers (readout_plan n) = readout_plan n).
  { unfold strip_barriers, readout_plan. induction (seq 0 n) as [|a l IH]; simpl;
      [reflexivity|now rewrite IH]. }
  assert (HDJ : strip_barriers (data (DJ.compile_circuit function))
                = [XGate n] ++ map HGate (seq 0 (n + 1)) ++ strip_barriers (data function)
                    ++ map HGate (seq 0 n) ++ readout_plan n).
  { unfold DJ.compile_circuit, measure_range, h_range, compose, x, new, extend.
    cbn [data num_qubits num_clbits]. fold n. fold (readout_plan n).
    rewrite !strip_barriers_app, !Hh, Hm. cbn [strip_barriers filter app].
    now rewrite <- !app_assoc. }
  assert (HD : strip_barriers (data (D.compile_circuit function))
               = strip_barriers (data (DJ.compile_circuit function))).
  { rewrite HDJ.
    unfold D.compile_circuit, measure_range, h_range, compose, barrier, x, new, extend.
    cbn [data num_qubits num_clbits]. fold n. fold (readout_plan n).
    rewrite !strip_barriers_app, !Hh, Hm. cbn [strip_barriers filter app].
    rewrite ?app_nil_r. now rewrite <- !app_assoc. }
  repeat split; try assumption.
  intros seed.
  rewrite <- (run_strip_barriers (D.compile_circuit function)).
  rewrite <- (run_strip_barriers (DJ.compile_circuit function)).
  now rewrite HD.
Qed.

(** ** [add_cx] needs no padding *)

Section Padding.

Lemma list_ascii_of_string_app (s1 s2 : string) :
  list_ascii_of_string (s1 ++ s2)
  = list_ascii_of_string s1 ++ list_ascii_of_string s2.
Proof. induction s1 as [|c s1 IH]; simpl; [reflexivity|]. now rewrite IH. Qed.

Lemma rev_repeat_same {A : Type} (a : A) (k : nat) : rev (repeat a k) = repeat a k.
Proof.
  induction k as [|k IH]; [reflexivity|].
  simpl. rewrite IH. symmetry. apply repeat_cons.
Qed.

Lemma add_cx_gates_zeros (q : nat) (bits : list ascii) (k : nat) :
  DJ.add_cx_gates q (bits ++ repeat "0"%char k) = DJ.add_cx_gates q bits.
Proof.
  revert q. induction bits as [|b bits IH]; intros q.
  - simpl. revert q. induction k as [|k IHk]; intros q; [reflexivity|]. simpl. apply IHk.
  - simpl. now rewrite IH.
Qed.

Lemma add_cx_padded (n : nat) (state : N) (qc : QuantumCircuit) :
  DJ.add_cx qc (format_0nb n state) = DJ.add_cx qc (format_b state).
Proof.
  unfold DJ.add_cx, format_0nb. f_equal.
  rewrite list_ascii_of_string_app, list_ascii_of_string_of_list_ascii.
  now rewrite rev_app_distr, rev_repeat_same, add_cx_gates_zeros.
Qed.

End Padding.

(** C10. For every [state] below [2^n], [add_cx] with the unpadded string
    [f"{state:0b}"] appends one [x] exactly on the lines [i < n] where bit [i]
    of [state] is 1, so line [i] is flipped if and only if that bit is set;
    padding the string with zeros to [n] characters appends the same gates;
    and a second [add_cx] with the same string brings every line back. *)
Theorem add_cx_flips_set_bits (n : nat) (state : N) (qc : QuantumCircuit) :
  (state < 2 ^ N.of_nat n)%N ->
  data (DJ.add_cx qc (format_b state))
    = data qc ++ map XGate (filter (bit state) (seq 0 n)) /\
  (forall y i, bit (forward (x_gates state) y) i = xorb (bit y i) (bit state i)) /\
  DJ.add_cx qc (format_0nb n state) = DJ.add_cx qc (format_b state) /\
  (forall y,
     forward (data (DJ.add_cx (DJ.add_cx (new n 0) (format_b state)) (format_b state))) y
     = y).
Proof.
  intros Hs. repeat split.
  - unfold DJ.add_cx. cbn [extend data]. f_equal. now apply x_gates_spec.
  - intros y i. rewrite (forward_x_gates n) by assumption.
    unfold bit. apply N.lxor_spec.
  - apply add_cx_padded.
  - intros y. unfold DJ.add_cx. cbn [extend data new app]. fold (x_gates state).
    rewrite forward_app, !(forward_x_gates n) by assumption. apply lxor_lxor.
Qed.

Lemma add_cx_flips_set_bits_witness :
  (5 < 2 ^ N.of_nat 3)%N /\
  data (DJ.add_cx (new 4 1) (format_b 5))
    = data (new 4 1) ++ map XGate (filter (bit 5) (seq 0 3)) /\
  (forall y i, bit (forward (x_gates 5) y) i = xorb (bit y i) (bit 5 i)) /\
  DJ.add_cx (new 4 1) (format_0nb 3 5) = DJ.add_cx (new 4 1) (format_b 5) /\
  (forall y,
     forward (data (DJ.add_cx (DJ.add_cx (new 3 0) (format_b 5)) (format_b 5))) y = y).
Proof.
  split; [reflexivity|].
  apply (add_cx_flips_set_bits 3 5%N (new 4 1)). reflexivity.
Defined.

Example add_cx_five : data (DJ.add_cx (new 4 1) (format_b 5)) = [XGate 0; XGate 2].
Proof. reflexivity. Qed.

(** * Further properties of the two sources *)

(** ** The four Deutsch functions *)

Section Deutsch.

Lemma deutsch_cases (case : Z) :
  existsb (Z.eqb case) [1; 2; 3; 4]%Z = true ->
  case = 1%Z \/ case = 2%Z \/ case = 3%Z \/ case = 4%Z.
Proof.
  cbn [existsb]. intros H.
  destruct (Z.eqb_spec case 1); [tauto|].
  destruct (Z.eqb_spec case 2); [tauto|].
  destruct (Z.eqb_spec case 3); [tauto|].
  destruct (Z.eqb_spec case 4); [tauto|]. discriminate.
Qed.

Lemma deutsch_function_ok (case : Z) (f : QuantumCircuit) :
  D.deutsch_function case = Ok f ->
  case = 1%Z \/ case = 2%Z \/ case = 3%Z \/ case = 4%Z.
Proof.
  unfold D.deutsch_function. intros H. apply deutsch_cases.
  destruct (existsb (Z.eqb case) [1; 2; 3; 4]%Z); [reflexivity|discriminate].
Qed.

Lemma bit_inputs_one (y : N) : bit (inputs 1 y) 0 = bit y 0.
Proof. rewrite bit_inputs. apply andb_true_r. Qed.

Lemma deutsch_function_implements (case : Z) (f : QuantumCircuit) :
  D.deutsch_function case = Ok f -> implements 1 f (deutsch_table case).
Proof.
  intros Hf. destruct (deutsch_function_ok case f Hf) as [-> | [-> | [-> | ->]]];
    injection Hf as <-; split; try reflexivity;
    try (repeat constructor; simpl; lia); intros y;
    unfold oracle_map, deutsch_table, forward;
    cbn [Z.eqb Pos.eqb x cx new extend data app fold_left permute];
    rewrite ?bit_inputs_one; try reflexivity.
  destruct (bit y 0); cbn [negb]; [apply flip_involutive|reflexivity].
Qed.

Lemma deutsch_table_class (case : Z) :
  case = 1%Z \/ case = 2%Z \/ case = 3%Z \/ case = 4%Z ->
  if ((case =? 2) || (case =? 3))%Z
  then balanced_on 1 (deutsch_table case)
  else constant_on 1 (deutsch_table case).
Proof.
  intros [-> | [-> | [-> | ->]]]; cbn [Z.eqb Pos.eqb orb];
    try reflexivity; intros a _; reflexivity.
Qed.

End Deutsch.

(** X1. Each oracle [deutsch_function] returns is the transform the comments
    of its four cases describe: on two lines, the output line is XORed with
    the case's function of the input line ([0], the input, the negated input,
    [1]) and the input line is left as it was. *)
Theorem deutsch_function_xors_its_table (case : Z) (f : QuantumCircuit) (y : N) :
  D.deutsch_function case = Ok f ->
  num_qubits f = 2 /\
  forward (data f) y = (if deutsch_table case (inputs 1 y) then flip 1 y else y) /\
  inputs 1 (forward (data f) y) = inputs 1 y.
Proof.
  intros Hf. destruct (deutsch_function_implements case f Hf) as [Hl _ _ Hfw].
  split; [exact Hl|]. rewrite Hfw. unfold oracle_map. split; [reflexivity|].
  destruct (deutsch_table case (inputs 1 y)); [apply inputs_flip|reflexivity].
Qed.

Lemma deutsch_function_xors_its_table_witness :
  D.deutsch_function 3 = Ok (mkCircuit 2 0 [CXGate 0 1; XGate 1]) /\
  num_qubits (mkCircuit 2 0 [CXGate 0 1; XGate 1]) = 2 /\
  forward (data (mkCircuit 2 0 [CXGate 0 1; XGate 1])) 1
    = (if deutsch_table 3 (inputs 1 1) then flip 1 1 else 1%N) /\
  inputs 1 (forward (data (mkCircuit 2 0 [CXGate 0 1; XGate 1])) 1) = inputs 1 1.
Proof.
  split; [reflexivity|].
  apply (deutsch_function_xors_its_table 3 (mkCircuit 2 0 [CXGate 0 1; XGate 1]) 1%N).
  reflexivity.
Defined.

(** ** Deutsch's algorithm is the one-input case of Deutsch-Jozsa *)

Section OneInput.

Lemma strip_barriers_hadamards (k : nat) :
  strip_barriers (map HGate (seq 0 k)) = map HGate (seq 0 k).
Proof.
  unfold strip_barriers. induction (seq 0 k) as [|a l IH]; simpl;
    [reflexivity|now rewrite IH].
Qed.

Lemma compile_circuits_agree (function : QuantumCircuit) (seed : N) :
  Aer.run (D.compile_circuit function) seed = Aer.run (DJ.compile_circuit function) seed.
Proof.
  rewrite <- (run_strip_barriers (D.compile_circuit function)).
  rewrite <- (run_strip_barriers (DJ.compile_circuit function)).
  f_equal. unfold D.compile_circuit, DJ.compile_circuit, measure_range, h_range,
    compose, barrier, x, new, extend.
  cbn [data num_qubits num_clbits]. f_equal.
  rewrite !strip_barriers_app. cbn [strip_barriers filter app].
  now rewrite ?app_nil_r.
Qed.

(** On a one-character memory string, [== "0"] and [not ("1" in ...)] are the
    same test. *)
Lemma deutsch_algorithm_as_dj (f : QuantumCircuit) (seed : N) :
  num_qubits f = 2 -> D.deutsch_algorithm f seed = DJ.dj_algorithm f seed.
Proof.
  intros Hq. unfold D.deutsch_algorithm, DJ.dj_algorithm.
  rewrite compile_circuits_agree. unfold Aer.run.
  destruct (Aer.sample_from _ _ _) as [y|]; [|reflexivity].
  assert (Hc : num_clbits (DJ.compile_circuit f) = 1).
  { unfold DJ.compile_circuit. cbn. now rewrite Hq. }
  rewrite Hc. cbn [bind memory].
  destruct (bit _ 0); reflexivity.
Qed.

End OneInput.

(** X2. For each of the four cases, [deutsch_algorithm] on the oracle
    [deutsch_function] returns gives the class the docstring lists, for every
    draw of the shot: "constant" for cases 1 and 4, "balanced" for cases 2
    and 3. *)
Theorem deutsch_algorithm_decides (case : Z) (f : QuantumCircuit) (seed : N) :
  D.deutsch_function case = Ok f ->
  D.deutsch_algorithm f seed = Ok (deutsch_verdict case).
Proof.
  intros Hf.
  pose proof (deutsch_function_implements case f Hf) as Himpl.
  pose proof (deutsch_table_class case (deutsch_function_ok case f Hf)) as Hclass.
  rewrite deutsch_algorithm_as_dj by exact (impl_lines _ _ _ Himpl).
  unfold deutsch_verdict. destruct ((case =? 2) || (case =? 3))%Z.
  - now apply (dj_algorithm_balanced 1 f _ Himpl seed).
  - now apply (dj_algorithm_constant 1 f _ Himpl seed).
Qed.

Lemma deutsch_algorithm_decides_witness :
  D.deutsch_function 2 = Ok (mkCircuit 2 0 [CXGate 0 1]) /\
  D.deutsch_algorithm (mkCircuit 2 0 [CXGate 0 1]) 6 = Ok (deutsch_verdict 2).
Proof.
  split; [reflexivity|].
  apply (deutsch_algorithm_decides 2 (mkCircuit 2 0 [CXGate 0 1]) 6%N). reflexivity.
Defined.

(** X3. On every oracle with one input line, whatever its gates,
    [deutsch_algorithm] and [dj_algorithm] return the same result for the same
    draw: the two compiled circuits give the same shot, and on its single
    character the tests [== "0"] and ["1" in] agree. *)
Theorem deutsch_algorithm_is_dj_algorithm (f : QuantumCircuit) (seed : N) :
  num_qubits f = 2 ->
  Aer.run (D.compile_circuit f) seed = Aer.run (DJ.compile_circuit f) seed /\
  D.deutsch_algorithm f seed = DJ.dj_algorithm f seed.
Proof.
  intros Hq. split; [apply compile_circuits_agree|now apply deutsch_algorithm_as_dj].
Qed.

Lemma deutsch_algorithm_is_dj_algorithm_witness :
  num_qubits (mkCircuit 2 0 [HGate 0; CXGate 0 1]) = 2 /\
  Aer.run (D.compile_circuit (mkCircuit 2 0 [HGate 0; CXGate 0 1])) 9
    = Aer.run (DJ.compile_circuit (mkCircuit 2 0 [HGate 0; CXGate 0 1])) 9 /\
  D.deutsch_algorithm (mkCircuit 2 0 [HGate 0; CXGate 0 1]) 9
    = DJ.dj_algorithm (mkCircuit 2 0 [HGate 0; CXGate 0 1]) 9.
Proof.
  split; [reflexivity|].
  apply (deutsch_algorithm_is_dj_algorithm (mkCircuit 2 0 [HGate 0; CXGate 0 1]) 9%N).
  reflexivity.
Defined.

(** ** The decision procedures on any bit oracle *)

Section AnyOracle.

Variables (n : nat) (f : QuantumCircuit) (tt : N -> bool) (rng : nat -> N).
Hypothesis Himpl : implements n f tt.
Hypothesis Hn : 1 <= n.

(** Without any promise the loop still ends in one of two ways. *)
Lemma classical_cases :
  (DJ.dj_classical_algorithm f rng = Ok ("constant", 2 ^ (n - 1) + 1) /\
   forall j, j <= 2 ^ (n - 1) -> tt (N.of_nat j) = tt 0%N) \/
  (exists k,
     DJ.dj_classical_algorithm f rng = Ok ("balanced", k) /\
     2 <= k <= 2 ^ (n - 1) + 1 /\
     (forall j, j < k - 1 -> tt (N.of_nat j) = tt 0%N) /\
     tt (N.of_nat (k - 1)) = negb (tt 0%N)).
Proof.
  unfold DJ.dj_classical_algorithm, DJ.dj_classical_algorithm_queries.
  rewrite (impl_lines n f tt Himpl), Nat.add_sub, try_states_eq by assumption.
  pose proof (try_states_lt n Hn) as Hlt.
  set (m := 2 ^ (n - 1)) in *.
  replace (m + 1) with (S m) in * by lia. cbn [seq map] in *.
  inversion Hlt as [|? ? H0 Hrest]; subst.
  set (rest := map N.of_nat (seq 1 m)) in *.
  assert (Hnth : forall i, i < m -> nth i rest 0%N = N.of_nat (S i)).
  { intros i Hi. unfold rest.
    change 0%N with (N.of_nat 0). rewrite map_nth, seq_nth by assumption.
    reflexivity. }
  assert (Hlenrest : List.length rest = m)
    by (unfold rest; now rewrite length_map, length_seq).
  destruct (forallb (fun s => Bool.eqb (tt s) (tt 0%N)) rest) eqn:Hall.
  - left. rewrite forallb_forall in Hall. split.
    + rewrite (classical_loop_same n f tt rng Himpl _ 0 [] (tt 0%N)).
      * cbn [List.length fst]. rewrite Hlenrest. do 2 f_equal.
      * now constructor.
      * intros o [].
      * intros s [<-|Hs]; [reflexivity|]. now apply Bool.eqb_prop, Hall.
    + intros j Hj. destruct j as [|j]; [reflexivity|].
      apply Bool.eqb_prop, Hall. rewrite <- Hnth by lia. apply nth_In. lia.
  - right. cbn [DJ.classical_loop]. rewrite (query_result n f tt) by assumption.
    cbn [DJ.nonempty andb app].
    destruct (first_differ _ _ Hall) as (pre & s & post & Hsplit & Hpre & Hs).
    assert (Hlenpre : List.length pre < m).
    { rewrite <- Hlenrest, Hsplit, length_app. simpl. lia. }
    assert (Hsval : s = N.of_nat (S (List.length pre))).
    { rewrite <- Hnth by assumption. rewrite Hsplit. now rewrite nth_middle. }
    exists (1 + List.length pre + 1). repeat split.
    + rewrite Hsplit. rewrite Hsplit in Hrest.
      rewrite (classical_loop_differs n f tt rng Himpl pre s post 1 _ (tt 0%N)).
      * reflexivity.
      * assumption.
      * discriminate.
      * intros o [<-|[]]. reflexivity.
      * intros s' Hs'. apply Bool.eqb_prop. auto.
      * intros Heq. rewrite Heq, Bool.eqb_reflx in Hs. discriminate.
    + lia.
    + lia.
    + intros j Hj. destruct j as [|j]; [reflexivity|].
      assert (Hjl : j < List.length pre) by lia.
      apply Bool.eqb_prop, Hpre.
      rewrite <- Hnth by lia. rewrite Hsplit, app_nth1 by assumption.
      now apply nth_In.
    + replace (1 + List.length pre + 1 - 1) with (S (List.length pre)) by lia.
      rewrite <- Hsval. destruct (tt s), (tt 0%N); simpl in *; congruence.
Qed.

(** A shot of the compiled circuit gives one of the two verdicts. *)
Lemma dj_algorithm_total (seed : N) :
  DJ.dj_algorithm f seed = Ok "constant" \/ DJ.dj_algorithm f seed = Ok "balanced".
Proof.
  destruct (compiled_shot n f tt Himpl seed) as (y & m & _ & _ & _ & _ & Hv).
  rewrite Hv. destruct (existsb (bit y) (seq 0 n)); auto.
Qed.

End AnyOracle.

Lemma cx_is_identity_oracle :
  implements 1 (mkCircuit 2 0 [CXGate 0 1]) (deutsch_table 2).
Proof. apply deutsch_function_implements. reflexivity. Qed.

(** X4. [dj_algorithm] decides every bit oracle that keeps the promise, not
    only the generated ones: if the circuit XORs a truth table of [n >= 1]
    inputs into its last line, then every shot gives "constant" when the table
    is constant and "balanced" when it is balanced; without the promise it
    still returns one of the two verdicts and never fails. *)
Theorem dj_algorithm_decides_any_oracle (n : nat) (f : QuantumCircuit)
    (tt : N -> bool) (seed : N) :
  1 <= n ->
  implements n f tt ->
  (constant_on n tt -> DJ.dj_algorithm f seed = Ok "constant") /\
  (balanced_on n tt -> DJ.dj_algorithm f seed = Ok "balanced") /\
  (DJ.dj_algorithm f seed = Ok "constant" \/ DJ.dj_algorithm f seed = Ok "balanced").
Proof.
  intros Hn Himpl. repeat split.
  - intros Hc. now apply (dj_algorithm_constant n f tt Himpl seed).
  - intros Hb. now apply (dj_algorithm_balanced n f tt Himpl seed).
  - now apply (dj_algorithm_total n f tt).
Qed.

Lemma dj_algorithm_decides_any_oracle_witness :
  DJ.dj_algorithm (mkCircuit 2 0 [CXGate 0 1]) 4 = Ok "balanced".
Proof.
  apply (dj_algorithm_decides_any_oracle 1 (mkCircuit 2 0 [CXGate 0 1])
           (deutsch_table 2) 4%N).
  - lia.
  - exact cx_is_identity_oracle.
  - reflexivity.
Defined.

(** X5. On every bit oracle with [n >= 1] inputs, promise or not,
    [dj_classical_algorithm] makes between 2 and [2^(n-1) + 1] queries and its
    verdict is sound for what it has seen: it returns
    [("constant", 2^(n-1) + 1)] only when the inputs [0 .. 2^(n-1)] all give
    the output of input 0, and [("balanced", k)] only when input [k - 1] is
    the first whose output differs from that of input 0.  So it never calls a
    constant function balanced. *)
Theorem dj_classical_algorithm_sound (n : nat) (f : QuantumCircuit)
    (tt : N -> bool) (rng : nat -> N) :
  1 <= n ->
  implements n f tt ->
  (DJ.dj_classical_algorithm f rng = Ok ("constant", 2 ^ (n - 1) + 1) /\
   forall j, j <= 2 ^ (n - 1) -> tt (N.of_nat j) = tt 0%N) \/
  (exists k,
     DJ.dj_classical_algorithm f rng = Ok ("balanced", k) /\
     2 <= k <= 2 ^ (n - 1) + 1 /\
     (forall j, j < k - 1 -> tt (N.of_nat j) = tt 0%N) /\
     tt (N.of_nat (k - 1)) = negb (tt 0%N)).
Proof. intros Hn Himpl. now apply classical_cases. Qed.

Lemma dj_classical_algorithm_sound_witness :
  (DJ.dj_classical_algorithm (mkCircuit 2 0 [CXGate 0 1]) (fun _ => 0%N)
   = Ok ("constant", 2 ^ (1 - 1) + 1) /\
   forall j, j <= 2 ^ (1 - 1) -> deutsch_table 2 (N.of_nat j) = deutsch_table 2 0) \/
  (exists k,
     DJ.dj_classical_algorithm (mkCircuit 2 0 [CXGate 0 1]) (fun _ => 0%N)
     = Ok ("balanced", k) /\
     2 <= k <= 2 ^ (1 - 1) + 1 /\
     (forall j, j < k - 1 -> deutsch_table 2 (N.of_nat j) = deutsch_table 2 0) /\
     deutsch_table 2 (N.of_nat (k - 1)) = negb (deutsch_table 2 0)).
Proof.
  apply (dj_classical_algorithm_sound 1 (mkCircuit 2 0 [CXGate 0 1])
           (deutsch_table 2) (fun _ => 0%N)).
  - lia.
  - exact cx_is_identity_oracle.
Defined.

(** ** The two paths on one oracle *)

(** X6. The closing lines of [deutschJozsaAlgorithm.py] run both procedures on
    one generated oracle: for [n >= 1] they always print the same class, the
    quantum path after its single query and the classical path after [k]
    queries with [2 <= k <= 2^(n-1) + 1]. *)
Theorem quantum_and_classical_agree (n : nat) (flip_output constant : bool)
    (on_states : list N) (f : QuantumCircuit) (seed : N) (rng : nat -> N) :
  1 <= n ->
  (constant = false -> DJ.choice_without_replacement n on_states) ->
  DJ.dj_function n flip_output constant on_states = Ok f ->
  exists verdict k,
    DJ.dj_algorithm f seed = Ok verdict /\
    DJ.dj_classical_algorithm f rng = Ok (verdict, k) /\
    2 <= k <= 2 ^ (n - 1) + 1.
Proof.
  intros Hn Hchoice Hf. destruct constant.
  - change (DJ.dj_function n flip_output true on_states)
      with (DJ.dj_function n flip_output true []) in Hf.
    apply dj_function_implements in Hf; [|constructor].
    assert (Hpos : 0 < 2 ^ (n - 1)) by (apply Nat.neq_0_lt_0, Nat.pow_nonzero; lia).
    exists "constant", (2 ^ (n - 1) + 1). split; [|split; [|lia]].
    + apply (dj_algorithm_constant n f _ Hf seed), dj_table_nil.
    + apply (classical_on_constant n f _ rng Hf Hn), dj_table_nil.
  - pose proof (dj_table_balanced n flip_output on_states Hn (Hchoice eq_refl)) as Hb.
    destruct (Hchoice eq_refl) as (Hnd & Hlt & Hlen).
    apply dj_function_implements in Hf; [|assumption].
    destruct (classical_on_balanced n f _ rng Hf Hn Hb) as (k & Hres & Hk & _).
    exists "balanced", k. split; [|split; assumption].
    now apply (dj_algorithm_balanced n f _ Hf seed).
Qed.

Lemma quantum_and_classical_agree_witness :
  DJ.dj_function 2 false false [1; 2]%N = Ok example_balanced /\
  exists verdict k,
    DJ.dj_algorithm example_balanced 7 = Ok verdict /\
    DJ.dj_classical_algorithm example_balanced (fun _ => 1%N) = Ok (verdict, k) /\
    2 <= k <= 2 ^ (2 - 1) + 1.
Proof.
  split; [reflexivity|].
  apply (quantum_and_classical_agree 2 false false [1; 2]%N example_balanced 7%N
           (fun _ => 1%N)).
  - lia.
  - intros _. exact choice_example.
  - reflexivity.
Defined.

(** X12. The oracles of [deutschsAlgorithm.py] under the procedures of
    [deutschJozsaAlgorithm.py]: for each of the four cases [dj_algorithm]
    gives the class of the docstring, and [dj_classical_algorithm] gives the
    same class after exactly 2 queries, the number the docstring says a
    classical algorithm needs. *)
Theorem deutsch_oracle_under_dj (case : Z) (f : QuantumCircuit) (seed : N)
    (rng : nat -> N) :
  D.deutsch_function case = Ok f ->
  DJ.dj_algorithm f seed = Ok (deutsch_verdict case) /\
  DJ.dj_classical_algorithm f rng = Ok (deutsch_verdict case, 2).
Proof.
  intros Hf.
  pose proof (deutsch_function_implements case f Hf) as Himpl.
  pose proof (deutsch_table_class case (deutsch_function_ok case f Hf)) as Hclass.
  unfold deutsch_verdict. destruct ((case =? 2) || (case =? 3))%Z.
  - split.
    + now apply (dj_algorithm_balanced 1 f _ Himpl seed).
    + destruct (classical_on_balanced 1 f _ rng Himpl (Nat.le_refl 1) Hclass)
        as (k & Hres & Hk & _).
      cbn in Hk. assert (k = 2) by lia. now subst.
  - split.
    + now apply (dj_algorithm_constant 1 f _ Himpl seed).
    + now apply (classical_on_constant 1 f _ rng Himpl (Nat.le_refl 1)).
Qed.

Lemma deutsch_oracle_under_dj_witness :
  D.deutsch_function 4 = Ok (mkCircuit 2 0 [XGate 1]) /\
  DJ.dj_algorithm (mkCircuit 2 0 [XGate 1]) 2 = Ok (deutsch_verdict 4) /\
  DJ.dj_classical_algorithm (mkCircuit 2 0 [XGate 1]) (fun _ => 0%N)
    = Ok (deutsch_verdict 4, 2).
Proof.
  split; [reflexivity|].
  apply (deutsch_oracle_under_dj 4 (mkCircuit 2 0 [XGate 1]) 2%N (fun _ => 0%N)).
  reflexivity.
Defined.

(** ** The generated oracle as a transform *)

(** X7. The truth table of a balanced-branch oracle, input by input: with
    distinct [on_states] below [2^n], a classical query at [x] returns "1"
    exactly when [x] is the bitwise complement (on [n] bits) of one of the
    [on_states], the answer being inverted when the output flip was drawn. *)
Theorem balanced_oracle_truth_table (n : nat) (flip_output : bool)
    (on_states : list N) (f : QuantumCircuit) (x' seed : N) :
  NoDup on_states ->
  Forall (fun s => (s < 2 ^ N.of_nat n)%N) on_states ->
  DJ.dj_function n flip_output false on_states = Ok f ->
  (x' < 2 ^ N.of_nat n)%N ->
  Aer.run (DJ.query_circuit f x') seed
  = Ok (out_char (xorb flip_output
                       (existsb (fun s => (x' =? N.lnot s (N.of_nat n))%N) on_states))).
Proof.
  intros Hnd Hlt Hf Hx.
  apply dj_function_implements in Hf; [|assumption].
  rewrite (query_result n f _ x' seed Hf Hx). now rewrite dj_table_nodup.
Qed.

Lemma balanced_oracle_truth_table_witness :
  DJ.dj_function 2 false false [1; 2]%N = Ok example_balanced /\
  (2 < 2 ^ N.of_nat 2)%N /\
  Aer.run (DJ.query_circuit example_balanced 2) 0
  = Ok (out_char (xorb false
                       (existsb (fun s => (2 =? N.lnot s (N.of_nat 2))%N) [1; 2]%N))).
Proof.
  split; [reflexivity|]. split; [reflexivity|].
  apply (balanced_oracle_truth_table 2 false [1; 2]%N example_balanced 2%N 0%N).
  - repeat constructor; simpl; intuition discriminate.
  - repeat constructor.
  - reflexivity.
  - reflexivity.
Defined.

(** X8. On the constant branch the first coin alone fixes the value, as the
    comment in [dj_function] says: every classical query returns "1" when the
    output flip was drawn and "0" when it was not, whatever the input. *)
Theorem constant_oracle_value (n : nat) (flip_output : bool)
    (on_states : list N) (f : QuantumCircuit) (x' seed : N) :
  DJ.dj_function n flip_output true on_states = Ok f ->
  (x' < 2 ^ N.of_nat n)%N ->
  Aer.run (DJ.query_circuit f x') seed = Ok (if flip_output then "1" else "0").
Proof.
  intros Hf Hx.
  change (DJ.dj_function n flip_output true on_states)
    with (DJ.dj_function n flip_output true []) in Hf.
  apply dj_function_implements in Hf; [|constructor].
  rewrite (query_result n f _ x' seed Hf Hx). reflexivity.
Qed.

Lemma constant_oracle_value_witness :
  DJ.dj_function 2 true true [] = Ok example_constant /\
  (3 < 2 ^ N.of_nat 2)%N /\
  Aer.run (DJ.query_circuit example_constant 3) 0 = Ok "1".
Proof.
  split; [reflexivity|]. split; [reflexivity|].
  apply (constant_oracle_value 2 true [] example_constant 3%N 0%N); reflexivity.
Defined.

(** X11. Every oracle [dj_function] returns is a reversible bit oracle on
    [n + 1] lines: each of its instructions is a barrier, an [x] on one of the
    lines [0 .. n], or the flip of line [n] controlled on all the input lines
    [0 .. n-1]; it leaves the [n] input lines of every basis state as they
    were; and applied twice it gives back the state it started from. *)
Theorem generated_oracle_is_reversible (n : nat) (flip_output constant : bool)
    (on_states : list N) (f : QuantumCircuit) (y : N) :
  Forall (fun s => (s < 2 ^ N.of_nat n)%N) on_states ->
  DJ.dj_function n flip_output constant on_states = Ok f ->
  Forall (fun g => g = Barrier \/ g = MCXGate (seq 0 n) n \/
                   exists q, g = XGate q /\ q <= n) (data f) /\
  inputs n (forward (data f) y) = inputs n y /\
  forward (data f) (forward (data f) y) = y.
Proof.
  intros Hlt Hf.
  assert (Hshape : Forall (fun g => g = Barrier \/ g = MCXGate (seq 0 n) n \/
                                    exists q, g = XGate q /\ q <= n) (data f)).
  { unfold DJ.dj_function in Hf.
    set (qc0 := if flip_output then x (new (n + 1) 0) n else new (n + 1) 0) in Hf.
    assert (H0 : Forall (fun g => g = Barrier \/ g = MCXGate (seq 0 n) n \/
                                  exists q, g = XGate q /\ q <= n) (data qc0)).
    { unfold qc0. destruct flip_output; cbn; [|constructor].
      constructor; [|constructor].
      right. right. exists n. split; [reflexivity|lia]. }
    destruct constant; injection Hf as <-; [exact H0|].
    unfold barrier, extend. cbn [data].
    rewrite (proj1 (on_state_blocks_data n on_states qc0)).
    apply Forall_app. split; [apply Forall_app; split; [exact H0|]|].
    - apply Forall_flat_map. revert Hlt. apply Forall_impl. intros s Hs.
      assert (Hx : Forall (fun g => g = Barrier \/ g = MCXGate (seq 0 n) n \/
                                    exists q, g = XGate q /\ q <= n) (x_gates s)).
      { rewrite (x_gates_spec n) by assumption. apply Forall_forall. intros g Hg.
        apply in_map_iff in Hg as (q & <- & Hq). apply filter_In in Hq as [Hq _].
        apply in_seq in Hq. right. right. exists q. split; [reflexivity|lia]. }
      constructor; [now left|]. apply Forall_app. split; [exact Hx|].
      constructor; [right; now left|exact Hx].
    - constructor; [now left|constructor]. }
  assert (Himpl : exists tt, implements n f tt).
  { destruct constant.
    - change (DJ.dj_function n flip_output true on_states)
        with (DJ.dj_function n flip_output true []) in Hf.
      eexists. apply (dj_function_implements _ _ _ _ _ (Forall_nil _) Hf).
    - eexists. apply (dj_function_implements _ _ _ _ _ Hlt Hf). }
  destruct Himpl as (tt & [Hl Hwf Hcl Hfw]). split; [exact Hshape|]. split.
  - rewrite Hfw. unfold oracle_map.
    destruct (tt (inputs n y)); [apply inputs_flip|reflexivity].
  - rewrite !Hfw. apply oracle_map_involutive.
Qed.

Lemma generated_oracle_is_reversible_witness :
  DJ.dj_function 2 false false [1; 2]%N = Ok example_balanced /\
  Forall (fun g => g = Barrier \/ g = MCXGate (seq 0 2) 2 \/
                   exists q, g = XGate q /\ q <= 2) (data example_balanced) /\
  inputs 2 (forward (data example_balanced) 5) = inputs 2 5 /\
  forward (data example_balanced) (forward (data example_balanced) 5) = 5%N.
Proof.
  split; [reflexivity|].
  apply (generated_oracle_is_reversible 2 false false [1; 2]%N example_balanced 5%N).
  - repeat constructor.
  - reflexivity.
Defined.

(** ** [add_cx] on any string *)

Section AnyString.

Lemma add_cx_gates_in (q0 : nat) (bits : list ascii) (g : Instruction) :
  In g (DJ.add_cx_gates q0 bits) <->
  exists q, g = XGate q /\ q0 <= q < q0 + List.length bits /\
            nth (q - q0) bits "0"%char = "1"%char.
Proof.
  revert q0. induction bits as [|b bits IH]; intros q0.
  - simpl. split; [intros []|]. intros (q & _ & Hq & _). lia.
  - cbn [DJ.add_cx_gates]. rewrite in_app_iff, IH. split.
    + intros [Hin|(q & -> & Hq & Hnth)].
      * destruct (Ascii.eqb_spec b "1"%char) as [->|]; [|destruct Hin].
        destruct Hin as [<-|[]]. exists q0. rewrite Nat.sub_diag. cbn [List.length nth].
        repeat split; lia.
      * exists q. cbn [List.length]. repeat split; try lia.
        replace (q - q0) with (S (q - S q0)) by lia. exact Hnth.
    + intros (q & -> & Hq & Hnth). cbn [List.length] in Hq.
      destruct (Nat.eq_dec q q0) as [->|Hne].
      * left. rewrite Nat.sub_diag in Hnth. cbn [nth] in Hnth. subst b.
        now left.
      * right. exists q. repeat split; try lia.
        replace (q - q0) with (S (q - S q0)) in Hnth by lia. exact Hnth.
Qed.

Lemma length_list_ascii_of_string (s : string) :
  List.length (list_ascii_of_string s) = String.length s.
Proof. induction s as [|c s IH]; simpl; [reflexivity|]. now rewrite IH. Qed.

Lemma filter_add_cx_gates (p : Instruction -> bool) (q0 : nat) (bits : list ascii) :
  (forall q, p (XGate q) = false) -> filter p (DJ.add_cx_gates q0 bits) = [].
Proof.
  intros Hp. revert q0. induction bits as [|b bits IH]; intros q0; [reflexivity|].
  cbn [DJ.add_cx_gates]. rewrite filter_app, IH.
  destruct (Ascii.eqb b "1"); simpl; [now rewrite Hp|reflexivity].
Qed.

(** The gates in order: one [x] per position holding ["1"]. *)
Lemma add_cx_gates_positions (q0 : nat) (bits : list ascii) :
  DJ.add_cx_gates q0 bits
  = map XGate (filter (fun q => Ascii.eqb (nth (q - q0) bits "0"%char) "1"%char)
                      (seq q0 (List.length bits))).
Proof.
  revert q0. induction bits as [|b bits IH]; intros q0; [reflexivity|].
  cbn [DJ.add_cx_gates List.length seq filter]. rewrite Nat.sub_diag. cbn [nth].
  rewrite IH.
  rewrite (filter_ext_in
             (fun q => Ascii.eqb (nth (q - q0) (b :: bits) "0"%char) "1"%char)
             (fun q => Ascii.eqb (nth (q - S q0) bits "0"%char) "1"%char)).
  - now destruct (Ascii.eqb b "1").
  - intros q Hq. apply in_seq in Hq.
    replace (q - q0) with (S (q - S q0)) by lia. reflexivity.
Qed.

End AnyString.

(** X10. For a string of ASCII characters no longer than the circuit has
    lines, [add_cx] keeps the circuit's lines, readout slots and earlier
    instructions, and appends exactly one [x] for every character ["1"], in
    increasing line order, on the line whose index is the character's
    distance from the right end of the string; every other character is
    skipped, and every line used exists. *)
Theorem add_cx_appends_x_per_one (qc : QuantumCircuit) (bit_string : string) :
  String.length bit_string <= num_qubits qc ->
  Forall (fun c => (N_of_ascii c < 128)%N) (list_ascii_of_string bit_string) ->
  num_qubits (DJ.add_cx qc bit_string) = num_qubits qc /\
  num_clbits (DJ.add_cx qc bit_string) = num_clbits qc /\
  data (DJ.add_cx qc bit_string)
    = data qc
        ++ map XGate
             (filter (fun q => Ascii.eqb (nth q (rev (list_ascii_of_string bit_string))
                                             "0"%char) "1"%char)
                     (seq 0 (String.length bit_string))) /\
  Forall (wf (num_qubits qc))
         (map XGate
            (filter (fun q => Ascii.eqb (nth q (rev (list_ascii_of_string bit_string))
                                            "0"%char) "1"%char)
                    (seq 0 (String.length bit_string)))).
Proof.
  intros Hlen _. split; [reflexivity|]. split; [reflexivity|]. split.
  - unfold DJ.add_cx. cbn [extend data]. f_equal.
    rewrite add_cx_gates_positions, length_rev, length_list_ascii_of_string.
    f_equal. apply filter_ext. intros q. now rewrite Nat.sub_0_r.
  - apply Forall_forall. intros g Hg. apply in_map_iff in Hg as (q & <- & Hq).
    apply filter_In in Hq as [Hq _]. apply in_seq in Hq. simpl. lia.
Qed.

Lemma add_cx_appends_x_per_one_witness :
  String.length "1a01" <= num_qubits (new 4 1) /\
  num_qubits (DJ.add_cx (new 4 1) "1a01") = num_qubits (new 4 1) /\
  num_clbits (DJ.add_cx (new 4 1) "1a01") = num_clbits (new 4 1) /\
  data (DJ.add_cx (new 4 1) "1a01")
    = data (new 4 1)
        ++ map XGate
             (filter (fun q => Ascii.eqb (nth q (rev (list_ascii_of_string "1a01"))
                                             "0"%char) "1"%char)
                     (seq 0 (String.length "1a01"))) /\
  Forall (wf (num_qubits (new 4 1)))
         (map XGate
            (filter (fun q => Ascii.eqb (nth q (rev (list_ascii_of_string "1a01"))
                                            "0"%char) "1"%char)
                    (seq 0 (String.length "1a01")))).
Proof.
  split; [simpl; lia|].
  apply (add_cx_appends_x_per_one (new 4 1) "1a01").
  - simpl. lia.
  - repeat constructor.
Defined.

Example add_cx_skips_other_characters :
  data (DJ.add_cx (new 4 1) "1a01") = [XGate 0; XGate 3].
Proof. reflexivity. Qed.

(** ** The size of a generated oracle *)

(** X13. The oracle of the balanced branch holds one multi-controlled flip per
    element of [on_states], each controlled on all [n] input lines with the
    output line as target, and one barrier more than that; the oracle of the
    constant branch holds neither. *)
Theorem generated_oracle_census (n : nat) (flip_output constant : bool)
    (on_states : list N) (f : QuantumCircuit) :
  DJ.dj_function n flip_output constant on_states = Ok f ->
  filter is_mcx (data f)
    = (if constant then []
       else repeat (MCXGate (seq 0 n) n) (List.length on_states)) /\
  List.length (filter is_barrier (data f))
    = (if constant then 0 else List.length on_states + 1).
Proof.
  intros Hf. unfold DJ.dj_function in Hf.
  set (qc0 := if flip_output then x (new (n + 1) 0) n else new (n + 1) 0) in Hf.
  assert (Hd0 : data qc0 = if flip_output then [XGate n] else [])
    by (now destruct flip_output).
  destruct constant; injection Hf as <-.
  - rewrite Hd0. now destruct flip_output.
  - unfold barrier, extend. cbn [data].
    rewrite (proj1 (on_state_blocks_data n on_states qc0)), Hd0, !filter_app.
    assert (Hm : filter is_mcx
                   (flat_map (fun s => Barrier :: x_gates s
                                         ++ MCXGate (seq 0 n) n :: x_gates s) on_states)
                 = repeat (MCXGate (seq 0 n) n) (List.length on_states)).
    { induction on_states as [|s os IH]; [reflexivity|].
      cbn [flat_map filter is_mcx app List.length repeat].
      rewrite !filter_app, IH. cbn [filter is_mcx]. unfold x_gates.
      rewrite !filter_add_cx_gates by reflexivity. reflexivity. }
    assert (Hb : List.length (filter is_barrier
                   (flat_map (fun s => Barrier :: x_gates s
                                         ++ MCXGate (seq 0 n) n :: x_gates s) on_states))
                 = List.length on_states).
    { clear Hm. induction on_states as [|s os IH]; [reflexivity|].
      cbn [flat_map filter is_barrier app List.length].
      rewrite !filter_app, !length_app, IH. cbn [filter is_barrier]. unfold x_gates.
      rewrite !filter_add_cx_gates by reflexivity. simpl. lia. }
    rewrite Hm, !length_app, Hb.
    destruct flip_output; cbn [filter is_mcx is_barrier app List.length];
      rewrite ?app_nil_r; split; try reflexivity; lia.
Qed.

Lemma generated_oracle_census_witness :
  DJ.dj_function 2 false false [1; 2]%N = Ok example_balanced /\
  filter is_mcx (data example_balanced)
    = repeat (MCXGate (seq 0 2) 2) (List.length [1; 2]%N) /\
  List.length (filter is_barrier (data example_balanced)) = List.length [1; 2]%N + 1.
Proof.
  split; [reflexivity|].
  apply (generated_oracle_census 2 false false [1; 2]%N example_balanced). reflexivity.
Defined.
